(** * Mastermind by integer programming: a shallow embedding

    The notebook [victor-bitaraes-A1-mastermind.ipynb] defines one class,
    [Mastermind], that wraps a mixed-integer solver of OR-Tools:

    - [__init__(d, n)] creates the 0/1 variables [x[i][j]] and installs one
      equality per position, [sum_i x[i][j] == 1];
    - [add_restr(pswd, hit)] installs [sum_j x[int(pswd[j])][j] == hit];
    - [new_guess()] calls the solver, reads the solution values back and
      builds the string of the chosen symbols, or returns [False] when
      anything raises.

    Python integers are [Z]; indices produced by [range] are [nat]; a guess is
    the list of the integers [int(pswd[j])]; the linear model held by the
    solver object is a list of variables and a list of equalities.  The solver
    itself is an external library: it is a parameter of [new_guess], and the
    properties that depend on what it answers are stated under an explicit
    contract ([sound_on], [complete_on]).  The bound of a constraint is kept
    as the integer passed to [add_restr]; the solver holds it as a double,
    which is the same number up to magnitude 2^53 ([exact_hit]). *)

From Stdlib Require Import List ZArith QArith Lia Bool String Ascii.
From Stdlib Require Import DecimalString DecimalNat.
Import ListNotations.

Close Scope Q_scope.
Set Implicit Arguments.

(** ** Python outcomes: a call returns a value or raises *)

Inductive exn : Type :=
| IndexError    (* a list index past the end *)
| KeyError      (* a key absent from a dict *)
| SolverFault.  (* any exception coming out of the solver library *)

Inductive outcome (A : Type) : Type :=
| Returns (a : A)
| Raises (e : exn).

Arguments Returns {A} a.
Arguments Raises {A} e.

Definition bind {A B : Type} (c : outcome A) (k : A -> outcome B) : outcome B :=
  match c with
  | Returns a => k a
  | Raises e => Raises e
  end.

Notation "x <- c ;; k" := (bind c (fun x => k))
  (at level 61, c at next level, right associativity).

(** A generator consumed left to right: the first element that raises stops
    the iteration. *)
Fixpoint mapM {A B : Type} (f : A -> outcome B) (l : list A) : outcome (list B) :=
  match l with
  | [] => Returns []
  | a :: l' => b <- f a ;; bs <- mapM f l' ;; Returns (b :: bs)
  end.

(** What [new_guess] hands back: a [str] or the constant [False]. *)
Inductive pyval : Type :=
| PyStr (s : string)
| PyFalse.

(** Truth value of a Python object, as tested by [if suggestion:] in the
    driver loop: [False] and the empty string are false. *)
Definition truthy (v : pyval) : bool :=
  match v with
  | PyStr EmptyString => false
  | PyStr (String _ _) => true
  | PyFalse => false
  end.

(** [range(z)] for a Python integer [z]: empty when [z <= 0]. *)
Definition range (z : Z) : list nat := seq 0 (Z.to_nat z).

(** [l[j]] on a list, for an index [j >= 0]. *)
Definition list_get {A : Type} (l : list A) (j : nat) : outcome A :=
  match nth_error l j with
  | Some a => Returns a
  | None => Raises IndexError
  end.

(** [str(i)] for a non-negative integer. *)
Definition str (i : nat) : string := NilEmpty.string_of_uint (Nat.to_uint i).

(** ** The linear model held by the solver object *)

(** The variable created by [IntVar(0, 1, 'x[i][j]')]. *)
Definition var : Type := (nat * nat)%type.

(** [Sum(vars) == rhs]. *)
Definition linear_constraint : Type := (list var * Z)%type.

Record MPSolver : Type := {
  variables : list var;
  constraints : list linear_constraint
}.

(** [solver.Add(c)]. *)
Definition Add (c : linear_constraint) (s : MPSolver) : MPSolver :=
  {| variables := variables s; constraints := constraints s ++ [c] |}.

(** Result status of [Solve()]. *)
Inductive ResultStatus : Type :=
| OPTIMAL | FEASIBLE | INFEASIBLE | UNBOUNDED | ABNORMAL | MODEL_INVALID | NOT_SOLVED.

Definition has_solution (st : ResultStatus) : bool :=
  match st with
  | OPTIMAL | FEASIBLE => true
  | _ => false
  end.

(** What is observable after [Solve()] returned: its status, and for each
    variable what [solution_value()] does (returns a number or raises). *)
Record SolveResult : Type := {
  status : ResultStatus;
  solution_value : var -> outcome Q
}.

(** The external solver: [Solve()] on a model returns or raises. *)
Definition Solver : Type := MPSolver -> outcome SolveResult.

(** ** class Mastermind *)

Module Mastermind.

Record t : Type := {
  solver : MPSolver;
  digits : Z;
  length : Z;
  X : list (list var)   (* the dict [X], keys [0 .. d-1] in order; [X[i]] is a list *)
}.

(** [self.X[k]] for an integer key [k]: the dict has exactly the keys
    [0 .. len-1], any other key (a negative one too) is a [KeyError]. *)
Definition dict_get (X : list (list var)) (k : Z) : outcome (list var) :=
  if (k <? 0)%Z then Raises KeyError
  else match nth_error X (Z.to_nat k) with
       | Some r => Returns r
       | None => Raises KeyError
       end.

(** [__init__(self, d, n)]: [X[i][j]] is the variable [x[i][j]], created for
    [i] in [range(d)], [j] in [range(n)]; then one equality per [j]. *)
Definition __init__ (d n : Z) : t :=
  {| solver :=
       {| variables := flat_map (fun i => map (fun j => (i, j)) (range n)) (range d);
          constraints := map (fun j => (map (fun i => (i, j)) (range d), 1%Z)) (range n) |};
     digits := d;
     length := n;
     X := map (fun i => map (fun j => (i, j)) (range n)) (range d) |}.

(** The generator [self.X[int(pswd[j])][j] for j in range(self.length)];
    [pswd] is given as the integers [int(pswd[j])]. *)
Definition restr_sum (m : t) (pswd : list Z) : outcome (list var) :=
  mapM (fun j => s <- list_get pswd j ;;
                 r <- dict_get (X m) s ;;
                 list_get r j)
       (range (length m)).

(** [self.solver.Add(c)] on the engine. *)
Definition store (c : linear_constraint) (m : t) : t :=
  {| solver := Add c (solver m); digits := digits m; length := length m; X := X m |}.

(** [add_restr(self, pswd, hit)]: the outcome of the call and the engine
    after it.  The sum is built before [Add] is called, so a raise leaves the
    engine as it was.  [Add] hands the bound [hit] to the solver as a double:
    the right-hand side kept here is the integer [hit] itself, which is what
    the solver holds for every [hit] a double represents exactly
    ([exact_hit], magnitude at most 2^53); for larger magnitudes the program
    rounds the bound, or raises [OverflowError] beyond the range of doubles,
    and the statements that depend on the stored bound assume [exact_hit]. *)
Definition add_restr (pswd : list Z) (hit : Z) (m : t) : outcome unit * t :=
  match restr_sum m pswd with
  | Returns e => (Returns tt, store (e, hit) m)
  | Raises x => (Raises x, m)
  end.

(** The inner loop of [new_guess], [for i in range(self.digits)]: the
    assignment [i += self.digits] is overwritten by the next iteration, so
    every [i] is visited. *)
Fixpoint scan_column (sv : var -> outcome Q) (X : list (list var)) (j : nat)
         (rows : list nat) (suggestion : string) : outcome string :=
  match rows with
  | [] => Returns suggestion
  | i :: rows' =>
      r <- dict_get X (Z.of_nat i) ;;
      x <- list_get r j ;;
      v <- sv x ;;
      scan_column sv X j rows'
        (if negb (Qle_bool v (1 # 2)%Q) then (suggestion ++ " " ++ str i)%string
         else suggestion)
  end.

(** The outer loop, [for j in range(self.length)]. *)
Fixpoint scan (sv : var -> outcome Q) (X : list (list var)) (d : Z)
         (cols : list nat) (suggestion : string) : outcome string :=
  match cols with
  | [] => Returns suggestion
  | j :: cols' =>
      s <- scan_column sv X j (range d) suggestion ;;
      scan sv X d cols' s
  end.

(** The body of the [try]: the status returned by [Solve()] is dropped. *)
Definition new_guess_try (S : Solver) (m : t) : outcome string :=
  r <- S (solver m) ;;
  scan (solution_value r) (X m) (digits m) (range (length m)) EmptyString.

(** [new_guess(self)]: a bare [except:] turns every exception into [False]. *)
Definition new_guess (S : Solver) (m : t) : outcome pyval * t :=
  (match new_guess_try S m with
   | Returns suggestion => Returns (PyStr suggestion)
   | Raises _ => Returns PyFalse
   end, m).

(** The engine after [Mastermind(d, n)] and the calls [add_restr(pswd, hit)]
    of [log] in order, a call that raises leaving the engine unchanged. *)
Definition run (d n : Z) (log : list (list Z * Z)) : t :=
  fold_left (fun m c => snd (add_restr (fst c) (snd c) m)) log (__init__ d n).

End Mastermind.

Import Mastermind.

(** ** Meaning of a model, and the contract of the external solver *)

(** Value of [Sum(e)] under an integer assignment. *)
Definition eval (x : var -> Z) (e : list var) : Z :=
  fold_right (fun v acc => (x v + acc)%Z) 0%Z e.

(** An assignment solves a model when every declared variable is an integer
    in [0, 1] and every equality holds. *)
Definition is_solution (M : MPSolver) (x : var -> Z) : Prop :=
  (forall v, In v (variables M) -> (0 <= x v <= 1)%Z) /\
  (forall e rhs, In (e, rhs) (constraints M) -> eval x e = rhs).

(** A model is feasible when it has a solution. *)
Definition feasible (M : MPSolver) : Prop := exists x, is_solution M x.

(** The same test as a computation. *)
Definition check_solution (M : MPSolver) (x : var -> Z) : bool :=
  forallb (fun v => (0 <=? x v)%Z && (x v <=? 1)%Z) (variables M) &&
  forallb (fun c => (eval x (fst c) =? snd c)%Z) (constraints M).

(** Soundness of a solver on a model: when [Solve()] returns a status that
    announces a solution, [solution_value()] returns, for every declared
    variable, the value of one solution of the model (an integer variable of
    a MIP solver reads back as an exact integer); with any other status no
    solution is stored, and [solution_value()] returns zero or raises. *)
Definition sound_on (S : Solver) (M : MPSolver) : Prop :=
  forall r, S M = Returns r ->
    if has_solution (status r)
    then exists x, is_solution M x /\
                   forall v, In v (variables M) -> solution_value r v = Returns (inject_Z (x v))
    else forall v, solution_value r v = Returns 0%Q \/ exists e, solution_value r v = Raises e.

(** Whether a call of [Solve()] ended with a solution. *)
Definition found_solution (o : outcome SolveResult) : bool :=
  match o with
  | Returns r => has_solution (status r)
  | Raises _ => false
  end.

(** Completeness on a model: a feasible model is solved (no abort, no
    exception). *)
Definition complete_on (S : Solver) (M : MPSolver) : Prop :=
  feasible M -> found_solution (S M) = true.

(** ** Assignments, suggestions and the exact-match count *)

(** The string built by [new_guess] from the symbols it picks. *)
Definition render (a : list nat) : string :=
  fold_right (fun i s => (" " ++ str i ++ s)%string) EmptyString a.

(** Number of positions [j] in [range(n)] where assignment and guess agree. *)
Definition exact_matches (n : Z) (a : list nat) (pswd : list Z) : Z :=
  fold_right Z.add 0%Z
    (map (fun j => match nth_error a j, nth_error pswd j with
                   | Some s, Some p => if (Z.of_nat s =? p)%Z then 1%Z else 0%Z
                   | _, _ => 0%Z
                   end) (range n)).

(** An integer bound that a double represents exactly, so that the solver
    stores it unchanged. *)
Definition exact_hit (hit : Z) : Prop := (Z.abs hit <= 2 ^ 53)%Z.

(** A guess that [add_restr] can turn into a sum: at least [n] symbols, the
    first [n] of them keys of [X]. *)
Definition usable_guess (d n : Z) (pswd : list Z) : bool :=
  forallb (fun j => match nth_error pswd j with
                    | Some p => (0 <=? p)%Z && (p <? d)%Z
                    | None => false
                    end) (range n).

(** The sum stored for a usable guess. *)
Definition guess_sum (n : Z) (pswd : list Z) : list var :=
  map (fun j => (Z.to_nat (nth j pswd 0%Z), j)) (range n).

(** An assignment for an engine with [d] symbols and [n] positions. *)
Definition is_assignment (d n : Z) (a : list nat) : Prop :=
  List.length a = Z.to_nat n /\ Forall (fun s => (Z.of_nat s < d)%Z) a.

(** The symbols picked in column [j] by the loop of [new_guess], for the
    integer solution [x]. *)
Definition picked (x : var -> Z) (d : Z) (j : nat) : list nat :=
  filter (fun i => (0 <? x (i, j))%Z) (range d).

(** The symbols picked by the two loops, column after column. *)
Definition decode (x : var -> Z) (d n : Z) : list nat :=
  flat_map (picked x d) (range n).

(** ** Reference solvers, used to exercise the contract *)

(** Assignments as association lists, absent variables reading 0. *)
Fixpoint lookup (t : list (var * Z)) (v : var) : Z :=
  match t with
  | [] => 0%Z
  | (w, z) :: t' =>
      if (Nat.eqb (fst w) (fst v) && Nat.eqb (snd w) (snd v))%bool then z else lookup t' v
  end.

(** All 0/1 tables over a list of variables, in lexicographic order, 0
    before 1. *)
Fixpoint tables (vs : list var) : list (list (var * Z)) :=
  match vs with
  | [] => [[]]
  | v :: vs' =>
      map (fun t => (v, 0%Z) :: t) (tables vs') ++ map (fun t => (v, 1%Z) :: t) (tables vs')
  end.

(** [Solve()] returning status [st], the values read back being those of [x]. *)
Definition answer (st : ResultStatus) (x : var -> Z) : outcome SolveResult :=
  Returns {| status := st; solution_value := fun v => Returns (inject_Z (x v)) |}.

(** Exhaustive search: the first table that solves the model. *)
Definition enum_solver : Solver :=
  fun M => match find (fun t => check_solution M (lookup t)) (tables (variables M)) with
           | Some t => answer OPTIMAL (lookup t)
           | None => answer INFEASIBLE (fun _ => 0%Z)
           end.

(** A solver that proposes one fixed assignment and checks it. *)
Definition fixed_solver (x : var -> Z) : Solver :=
  fun M => if check_solution M x then answer OPTIMAL x
           else answer NOT_SOLVED (fun _ => 0%Z).

(** A solver whose every search is aborted. *)
Definition aborting_solver : Solver :=
  fun _ => answer ABNORMAL (fun _ => 0%Z).

(** A solver library that raises on every call. *)
Definition raising_solver : Solver :=
  fun _ => Raises SolverFault.

(** The six guesses of the five-digit example. *)
Definition euler_log : list (list Z * Z) :=
  [ ([9; 0; 3; 4; 2], 2); ([7; 0; 7; 9; 4], 0); ([3; 9; 4; 5; 8], 2);
    ([3; 4; 1; 0; 9], 1); ([5; 1; 5; 4; 5], 2); ([1; 2; 5; 3; 1], 1) ]%Z.

(** The indicator of an assignment. *)
Definition indicator (a : list nat) : var -> Z :=
  fun v => match nth_error a (snd v) with
           | Some s => if Nat.eqb s (fst v) then 1%Z else 0%Z
           | None => 0%Z
           end.

(** ** Auxiliary notions used in the statements *)

(** Sum of an integer family over a list of indices. *)
Definition sum (f : nat -> Z) (l : list nat) : Z := fold_right Z.add 0%Z (map f l).

(** The constraints that the calls of [log] stored, in order. *)
Definition stored (d n : Z) (log : list (list Z * Z)) : list linear_constraint :=
  map (fun c => (guess_sum n (fst c), snd c))
      (filter (fun c => usable_guess d n (fst c)) log).

(** The engine of dimensions [d], [n] whose solver holds, after the
    equalities of [__init__], the constraints [cs]. *)
Definition engine (d n : Z) (cs : list linear_constraint) : t :=
  {| solver := {| variables := variables (solver (__init__ d n));
                  constraints := constraints (solver (__init__ d n)) ++ cs |};
     digits := d;
     length := n;
     X := X (__init__ d n) |}.

(** The symbol of position [j] under the solution [x]. *)
Definition pick (d : Z) (x : var -> Z) (j : nat) : nat := hd 0 (picked x d j).

(** A string without the separator of [new_guess]. *)
Fixpoint no_space (s : string) : Prop :=
  match s with
  | EmptyString => True
  | String c s' => c <> " "%char /\ no_space s'
  end.

(** A string that is empty or begins with the separator. *)
Definition headed (s : string) : Prop :=
  s = EmptyString \/ exists s', s = String " " s'.

(** A model whose equalities mention declared variables only. *)
Definition closed_model (M : MPSolver) : Prop :=
  forall e rhs v, In (e, rhs) (constraints M) -> In v e -> In v (variables M).

(** The contradictory engine of the specification: [d = 2], [n = 1], guess
    [[0]] with one match, then guess [[0]] with none. *)
Definition contradictory : t := run 2 1 [([0], 1); ([0], 0)]%Z.

(** A suggestion that the caller's test [if suggestion:] rejects. *)
Definition no_suggestion (o : outcome pyval) : Prop :=
  o = Returns PyFalse \/ o = Returns (PyStr EmptyString).

(** All lists of [n] symbols below [d], in lexicographic order. *)
Fixpoint candidates (d n : nat) : list (list nat) :=
  match n with
  | O => [[]]
  | Datatypes.S n' => flat_map (fun s => map (cons s) (candidates d n')) (seq 0 d)
  end.

(** Whether an assignment has the announced number of exact matches with
    every guess of a log. *)
Definition agrees (n : Z) (log : list (list Z * Z)) (a : list nat) : bool :=
  forallb (fun c => (exact_matches n a (fst c) =? snd c)%Z) log.

(** ** The interactive session (the driver cell of the notebook)

    After reading [d] and [n] the script builds [master = Mastermind(d, n)]
    and loops: it reads a guess and its number of matches, stops with
    congratulations when [hit >= master.length], otherwise calls [add_restr]
    and [new_guess] and prints the suggestion, or ends when there is none.
    A round of input is the pair of the integers typed for the guess and of
    the integer typed for the matches; what the script prints is kept as a
    list of lines. *)

Inductive line : Type :=
| AskGuess                        (* 'Qual foi a ultima senha tentada? ' *)
| AskHits                         (* 'Quantos acertos ela teve? ' *)
| Congratulations                 (* 'Parabens! Voce venceu!' *)
| TryGuess (suggestion : pyval)   (* 'Tente a senha ', suggestion *)
| NoMoreSuggestions.              (* 'Acabaram as sugestoes!' *)

(** How the loop stands once the rounds typed so far are consumed. *)
Inductive ending : Type :=
| Won                  (* left by [break] *)
| OutOfSuggestions     (* left with [terminated = True] *)
| Crashed (e : exn)    (* an exception escaped the loop *)
| Waiting.             (* blocked in [input()] for the next guess *)

(** The [while not terminated] loop: the lines printed, how it stands, and
    [master] at that point.  Neither [add_restr] nor [new_guess] is called
    inside a [try], so an exception of either ends the script. *)
Fixpoint session (S : Solver) (master : t) (rounds : list (list Z * Z))
  : list line * (ending * t) :=
  match rounds with
  | [] => ([AskGuess], (Waiting, master))
  | (pswd, hit) :: rounds' =>
      if (length master <=? hit)%Z
      then ([AskGuess; AskHits; Congratulations], (Won, master))
      else
        match add_restr pswd hit master with
        | (Raises e, master') => ([AskGuess; AskHits], (Crashed e, master'))
        | (Returns _, master') =>
            match new_guess S master' with
            | (Raises e, master'') => ([AskGuess; AskHits], (Crashed e, master''))
            | (Returns suggestion, master'') =>
                if truthy suggestion
                then (AskGuess :: AskHits :: TryGuess suggestion
                               :: fst (session S master'' rounds'),
                      snd (session S master'' rounds'))
                else ([AskGuess; AskHits; NoMoreSuggestions],
                      (OutOfSuggestions, master''))
            end
        end
  end.

(** The suggestions printed, in order. *)
Fixpoint suggestions (out : list line) : list pyval :=
  match out with
  | [] => []
  | TryGuess v :: out' => v :: suggestions out'
  | _ :: out' => suggestions out'
  end.

(** Number of rounds whose constraint the loop stored, read off what it
    printed: one per suggestion, and one more when it ended for want of a
    suggestion. *)
Definition rounds_stored (out : list line) (e : ending) : nat :=
  List.length (suggestions out) + match e with OutOfSuggestions => 1 | _ => 0 end.

(** ** The batch run (the last cell of the notebook)

    [G] is the array of the guesses (all columns of the table but the last)
    and [h] the array of the matches (the last column): [n = len(G[0])],
    [master = Mastermind(10, n)], then [add_restr(G[k], h[k])] for [k] in
    [range(len(h))], then [new_guess()] is printed. *)
Fixpoint feed (master : t) (G : list (list Z)) (h : list Z) (ks : list nat) : outcome t :=
  match ks with
  | [] => Returns master
  | k :: ks' =>
      row <- list_get G k ;;
      hit <- list_get h k ;;
      match add_restr row hit master with
      | (Returns _, master') => feed master' G h ks'
      | (Raises e, _) => Raises e
      end
  end.

Definition euler185 (S : Solver) (G : list (list Z)) (h : list Z) : outcome pyval :=
  G0 <- list_get G 0 ;;
  master <- feed (__init__ 10 (Z.of_nat (List.length G0))) G h
                 (range (Z.of_nat (List.length h))) ;;
  fst (new_guess S master).

(** An assignment that has with every usable guess of a log the announced
    number of exact matches: a code the feedback does not rule out. *)
Definition consistent (d n : Z) (log : list (list Z * Z)) (a : list nat) : Prop :=
  is_assignment d n a /\
  forall pswd hit, In (pswd, hit) log -> usable_guess d n pswd = true ->
                   exact_matches n a pswd = hit.

(** * Properties *)

(** ** Strings and sums *)

Lemma append_assoc (a b c : string) : ((a ++ b) ++ c)%string = (a ++ b ++ c)%string.
Proof. induction a as [|ch a IH]; simpl; [reflexivity | now rewrite IH]. Qed.

Lemma append_empty_r (a : string) : (a ++ "")%string = a.
Proof. induction a as [|ch a IH]; simpl; [reflexivity | now rewrite IH]. Qed.

Lemma render_app (a b : list nat) : render (a ++ b) = (render a ++ render b)%string.
Proof.
  induction a as [|i a IH]; simpl; [reflexivity|].
  now rewrite IH, append_assoc.
Qed.

Lemma sum_ext (f g : nat -> Z) (l : list nat) :
  (forall i, In i l -> f i = g i) -> sum f l = sum g l.
Proof.
  unfold sum. induction l as [|i l IH]; intros H; simpl; [reflexivity|].
  rewrite (H i (or_introl eq_refl)), IH; [reflexivity|].
  intros k Hk. apply H. now right.
Qed.

Lemma eval_map (x : var -> Z) (f : nat -> var) (l : list nat) :
  eval x (map f l) = sum (fun j => x (f j)) l.
Proof. unfold sum. induction l as [|j l IH]; simpl; [reflexivity | now rewrite IH]. Qed.

Lemma in_range (z : Z) (i : nat) : In i (range z) <-> i < Z.to_nat z.
Proof. unfold range. rewrite in_seq. lia. Qed.

(** A 0/1 family that sums to 1 over a list singles out one element. *)
Lemma unit_sum_picks_one (f : nat -> Z) (l : list nat) :
  (forall i, In i l -> (0 <= f i <= 1)%Z) ->
  (sum f l = 0%Z ->
     filter (fun i => (0 <? f i)%Z) l = [] /\ forall i, In i l -> f i = 0%Z) /\
  (sum f l = 1%Z -> NoDup l ->
     exists s, In s l /\ filter (fun i => (0 <? f i)%Z) l = [s] /\ f s = 1%Z /\
               forall i, In i l -> i <> s -> f i = 0%Z).
Proof.
  unfold sum. induction l as [|a l IH]; intros Hb.
  - split; [intros _; split; [reflexivity | intros i []] | simpl; intros H; discriminate H].
  - assert (Ha : (0 <= f a <= 1)%Z) by (apply Hb; now left).
    assert (Hl : forall i, In i l -> (0 <= f i <= 1)%Z) by (intros i Hi; apply Hb; now right).
    assert (Hs : (0 <= fold_right Z.add 0 (map f l))%Z).
    { clear - Hl. induction l as [|b l IH]; simpl; [lia|].
      specialize (Hl b (or_introl eq_refl)) as Hb'.
      assert (0 <= fold_right Z.add 0 (map f l))%Z by (apply IH; intros i Hi; apply Hl; now right).
      lia. }
    destruct (IH Hl) as [IH0 IH1]. simpl. split.
    + intros H. assert (f a = 0%Z) by lia.
      destruct IH0 as [Hf Hz]; [lia|]. split.
      * replace (0 <? f a)%Z with false by (symmetry; apply Z.ltb_ge; lia). exact Hf.
      * intros i [<-|Hi]; [assumption | now apply Hz].
    + intros H Hnd. inversion Hnd as [|? ? Hnin Hnd']; subst.
      destruct (Z.eq_dec (f a) 1) as [E|E].
      * destruct IH0 as [Hf Hz]; [lia|].
        exists a. split; [now left|]. split; [|split; [exact E|]].
        -- replace (0 <? f a)%Z with true by (symmetry; apply Z.ltb_lt; lia).
           now rewrite Hf.
        -- intros i [<-|Hi] Hne; [congruence | now apply Hz].
      * assert (E0 : f a = 0%Z) by lia.
        destruct IH1 as (s & Hin & Hf & Hs1 & Hz); [lia | assumption |].
        exists s. split; [now right|]. split; [|split; [exact Hs1|]].
        -- replace (0 <? f a)%Z with false by (symmetry; apply Z.ltb_ge; lia). exact Hf.
        -- intros i [<-|Hi] Hne; [exact E0 | now apply Hz].
Qed.

(** ** The engine reached by [run] *)

(** Lookups in the table [X] built by [__init__]. *)
Lemma X_row (d n k : Z) :
  dict_get (X (__init__ d n)) k =
  if ((0 <=? k) && (k <? d))%Z then Returns (map (fun j => (Z.to_nat k, j)) (range n))
  else Raises KeyError.
Proof.
  unfold dict_get, __init__, range; simpl.
  destruct (Z.ltb_spec k 0) as [Hk|Hk].
  - replace (0 <=? k)%Z with false by (symmetry; apply Z.leb_gt; lia). reflexivity.
  - replace (0 <=? k)%Z with true by (symmetry; apply Z.leb_le; lia). simpl.
    rewrite nth_error_map, nth_error_seq.
    destruct (Z.ltb_spec k d) as [Hd|Hd].
    + replace (Z.to_nat k <? Z.to_nat d) with true by (symmetry; apply Nat.ltb_lt; lia).
      reflexivity.
    + replace (Z.to_nat k <? Z.to_nat d) with false by (symmetry; apply Nat.ltb_ge; lia).
      reflexivity.
Qed.

Lemma X_cell (n : Z) (i j : nat) :
  j < Z.to_nat n -> list_get (map (fun j => (i, j)) (range n)) j = Returns (i, j).
Proof.
  intros H. unfold list_get, range. rewrite nth_error_map, nth_error_seq.
  replace (j <? Z.to_nat n) with true by (symmetry; apply Nat.ltb_lt; lia).
  reflexivity.
Qed.

(** One element of the generator of [add_restr], on the table built by
    [__init__]. *)
Lemma restr_cell (d n : Z) (pswd : list Z) (j : nat) :
  j < Z.to_nat n ->
  (s <- list_get pswd j ;; r <- dict_get (X (__init__ d n)) s ;; list_get r j) =
  match nth_error pswd j with
  | None => Raises IndexError
  | Some p => if ((0 <=? p) && (p <? d))%Z then Returns (Z.to_nat p, j) else Raises KeyError
  end.
Proof.
  intros Hj. unfold list_get at 1.
  destruct (nth_error pswd j) as [p|]; cbn [bind]; [|reflexivity].
  rewrite X_row. destruct ((0 <=? p) && (p <? d))%Z; cbn [bind]; [|reflexivity].
  now apply X_cell.
Qed.

Lemma restr_cells (d n : Z) (pswd : list Z) (js : list nat) :
  (forall j, In j js -> j < Z.to_nat n) ->
  let f := fun j => s <- list_get pswd j ;; r <- dict_get (X (__init__ d n)) s ;; list_get r j in
  let ok := fun j => match nth_error pswd j with
                     | Some p => ((0 <=? p) && (p <? d))%Z
                     | None => false
                     end in
  if forallb ok js
  then mapM f js = Returns (map (fun j => (Z.to_nat (nth j pswd 0%Z), j)) js)
  else exists e, (e = IndexError \/ e = KeyError) /\ mapM f js = Raises e.
Proof.
  intros Hjs f ok. induction js as [|j js IH]; [reflexivity|].
  assert (Hj : j < Z.to_nat n) by (apply Hjs; now left).
  assert (IH' := IH (fun k Hk => Hjs k (or_intror Hk))). clear IH.
  cbn [forallb mapM map].
  assert (Hf : f j = match nth_error pswd j with
                     | None => Raises IndexError
                     | Some p => if ok j then Returns (Z.to_nat p, j) else Raises KeyError
                     end).
  { unfold f, ok. rewrite (@restr_cell d n pswd j Hj).
    destruct (nth_error pswd j); reflexivity. }
  rewrite Hf. clear Hf.
  destruct (nth_error pswd j) as [p|] eqn:Ep.
  - destruct (ok j) eqn:Eok; cbn [andb bind].
    + destruct (forallb ok js).
      * rewrite IH'. cbn [bind]. now rewrite (nth_error_nth _ _ 0%Z Ep).
      * destruct IH' as (e & He & HR). exists e. split; [exact He|].
        now rewrite HR.
    + exists KeyError. split; [now right | reflexivity].
  - replace (ok j) with false by (unfold ok; now rewrite Ep).
    exists IndexError. split; [now left | reflexivity].
Qed.

(** What [add_restr] does on an engine built by [__init__]. *)
Lemma add_restr_engine (d n : Z) (cs : list linear_constraint) (pswd : list Z) (hit : Z) :
  if usable_guess d n pswd
  then add_restr pswd hit (engine d n cs) =
       (Returns tt, engine d n (cs ++ [(guess_sum n pswd, hit)]))
  else exists e, (e = IndexError \/ e = KeyError) /\
                 add_restr pswd hit (engine d n cs) = (Raises e, engine d n cs).
Proof.
  unfold add_restr, restr_sum, usable_guess, guess_sum.
  change (X (engine d n cs)) with (X (__init__ d n)).
  change (length (engine d n cs)) with n.
  pose proof (@restr_cells d n pswd (range n) (fun j Hj => proj1 (in_range n j) Hj)) as H.
  cbv zeta in H.
  destruct (forallb _ (range n)).
  - rewrite H. unfold store, Add, engine; simpl. now rewrite <- app_assoc.
  - destruct H as (e & He & HR). exists e. split; [exact He|]. now rewrite HR.
Qed.

Lemma run_engine (d n : Z) (log : list (list Z * Z)) :
  run d n log = engine d n (stored d n log).
Proof.
  induction log as [|c log IH] using rev_ind.
  - unfold run, engine, stored; simpl. now rewrite app_nil_r.
  - unfold run in *. rewrite fold_left_app; simpl. rewrite IH.
    unfold stored. rewrite filter_app, map_app; simpl.
    pose proof (add_restr_engine d n (stored d n log) (fst c) (snd c)) as H.
    fold (stored d n log).
    destruct (usable_guess d n (fst c)); simpl.
    + now rewrite H.
    + destruct H as (e & _ & HR). rewrite HR; simpl. now rewrite app_nil_r.
Qed.

Lemma in_stored (d n : Z) (log : list (list Z * Z)) (pswd : list Z) (hit : Z) :
  In (pswd, hit) log -> usable_guess d n pswd = true ->
  In (guess_sum n pswd, hit) (stored d n log).
Proof.
  intros Hin Hu. unfold stored.
  apply (in_map (fun c => (guess_sum n (fst c), snd c)) _ (pswd, hit)).
  apply filter_In. split; [exact Hin | exact Hu].
Qed.

(** ** Reading the solution back *)

(** The test [solution_value() > 0.5] on an integer value. *)
Lemma above_half (z : Z) : negb (Qle_bool (inject_Z z) (1 # 2)%Q) = (0 <? z)%Z.
Proof.
  unfold Qle_bool, inject_Z; simpl.
  destruct (Z.leb_spec (z * 2) 1), (Z.ltb_spec 0 z); simpl; try reflexivity; lia.
Qed.

Section Scan.

Variables (d n : Z) (sv : var -> outcome Q).

(** Reading a stored integer solution [x]. *)
Section Solved.

Variable x : var -> Z.
Hypothesis reads :
  forall i j, i < Z.to_nat d -> j < Z.to_nat n -> sv (i, j) = Returns (inject_Z (x (i, j))).

Lemma scan_column_solved (j : nat) (rows : list nat) (s : string) :
  j < Z.to_nat n -> (forall i, In i rows -> i < Z.to_nat d) ->
  scan_column sv (X (__init__ d n)) j rows s =
  Returns (s ++ render (filter (fun i => (0 <? x (i, j))%Z) rows))%string.
Proof.
  intros Hj. revert s. induction rows as [|i rows IH]; intros s Hrows.
  - simpl. now rewrite append_empty_r.
  - assert (Hi : i < Z.to_nat d) by (apply Hrows; now left).
    cbn [scan_column]. rewrite X_row.
    replace ((0 <=? Z.of_nat i) && (Z.of_nat i <? d))%Z with true
      by (symmetry; apply andb_true_iff; split; [apply Z.leb_le | apply Z.ltb_lt]; lia).
    cbn [bind]. rewrite Nat2Z.id. unfold var in *. rewrite (@X_cell n i j Hj). cbn [bind].
    rewrite (reads Hi Hj). cbn [bind]. rewrite above_half.
    rewrite IH by (intros k Hk; apply Hrows; now right).
    cbn [filter]. destruct (0 <? x (i, j))%Z; [|reflexivity].
    cbn [render fold_right]. now rewrite append_assoc.
Qed.

Lemma scan_solved (cols : list nat) (s : string) :
  (forall j, In j cols -> j < Z.to_nat n) ->
  scan sv (X (__init__ d n)) d cols s =
  Returns (s ++ render (flat_map (picked x d) cols))%string.
Proof.
  revert s. induction cols as [|j cols IH]; intros s Hcols.
  - simpl. now rewrite append_empty_r.
  - cbn [scan]. rewrite scan_column_solved.
    + cbn [bind]. rewrite IH by (intros k Hk; apply Hcols; now right).
      cbn [flat_map]. rewrite render_app, append_assoc. reflexivity.
    + apply Hcols. now left.
    + intros i Hi. now apply in_range.
Qed.

End Solved.

(** Reading when no solution is stored: nothing is appended. *)
Section Blank.

Hypothesis blank : forall v, sv v = Returns 0%Q \/ exists e, sv v = Raises e.

Lemma scan_column_blank (X : list (list var)) (j : nat) (rows : list nat) (s : string) :
  scan_column sv X j rows s = Returns s \/ exists e, scan_column sv X j rows s = Raises e.
Proof.
  induction rows as [|i rows IH]; [now left|].
  cbn [scan_column].
  destruct (dict_get X (Z.of_nat i)) as [r|e]; cbn [bind]; [|right; now exists e].
  destruct (list_get r j) as [v|e]; cbn [bind]; [|right; now exists e].
  destruct (blank v) as [E|[e E]]; rewrite E; cbn [bind]; [|right; now exists e].
  exact IH.
Qed.

Lemma scan_blank (X : list (list var)) (k : Z) (cols : list nat) (s : string) :
  scan sv X k cols s = Returns s \/ exists e, scan sv X k cols s = Raises e.
Proof.
  induction cols as [|j cols IH]; [now left|].
  cbn [scan].
  destruct (scan_column_blank X j (range k) s) as [E|[e E]]; rewrite E; cbn [bind].
  - exact IH.
  - right. now exists e.
Qed.

End Blank.

End Scan.

(** ** Solutions of the engine's model are assignments *)

Section Decode.

Variables (d n : Z) (cs : list linear_constraint) (x : var -> Z).
Hypothesis sol : is_solution (solver (engine d n cs)) x.

Lemma cell_bounds (i j : nat) :
  i < Z.to_nat d -> j < Z.to_nat n -> (0 <= x (i, j) <= 1)%Z.
Proof.
  intros Hi Hj. apply (proj1 sol). simpl.
  apply in_flat_map. exists i. split; [now apply in_range|].
  apply in_map_iff. exists j. split; [reflexivity | now apply in_range].
Qed.

Lemma column_sum (j : nat) :
  j < Z.to_nat n -> sum (fun i => x (i, j)) (range d) = 1%Z.
Proof.
  intros Hj. rewrite <- eval_map. apply (proj2 sol). simpl.
  apply in_or_app. left.
  apply (in_map (fun j => (map (fun i => (i, j)) (range d), 1%Z))).
  now apply in_range.
Qed.

Lemma picked_one (j : nat) :
  j < Z.to_nat n ->
  picked x d j = [pick d x j] /\ pick d x j < Z.to_nat d /\
  forall i, i < Z.to_nat d -> x (i, j) = if Nat.eqb (pick d x j) i then 1%Z else 0%Z.
Proof.
  intros Hj.
  destruct (@unit_sum_picks_one (fun i => x (i, j)) (range d)) as [_ H].
  { intros i Hi. apply cell_bounds; [now apply in_range | exact Hj]. }
  destruct (H (column_sum Hj) (seq_NoDup _ _)) as (s & Hin & Hf & Hs & Hz).
  unfold pick, picked. rewrite Hf. simpl.
  split; [reflexivity|]. split; [now apply in_range|].
  intros i Hi. destruct (Nat.eqb_spec s i) as [<-|Hne]; [exact Hs|].
  apply Hz; [now apply in_range | congruence].
Qed.

Lemma decode_map : decode x d n = map (pick d x) (range n).
Proof.
  unfold decode.
  assert (H : forall js, (forall j, In j js -> j < Z.to_nat n) ->
                         flat_map (picked x d) js = map (pick d x) js).
  { induction js as [|j js IH]; intros Hjs; [reflexivity|].
    cbn [flat_map map]. rewrite (proj1 (picked_one (Hjs j (or_introl eq_refl)))).
    rewrite IH by (intros k Hk; apply Hjs; now right). reflexivity. }
  apply H. intros j Hj. now apply in_range.
Qed.

Lemma decode_nth (j : nat) :
  j < Z.to_nat n -> nth_error (decode x d n) j = Some (pick d x j).
Proof.
  intros Hj. rewrite decode_map. unfold range.
  rewrite nth_error_map, nth_error_seq.
  replace (j <? Z.to_nat n) with true by (symmetry; apply Nat.ltb_lt; lia).
  reflexivity.
Qed.

Lemma decode_assignment : is_assignment d n (decode x d n).
Proof.
  split.
  - rewrite decode_map. unfold range. now rewrite length_map, length_seq.
  - rewrite decode_map. apply Forall_forall. intros s Hs.
    apply in_map_iff in Hs. destruct Hs as (j & <- & Hj).
    apply in_range in Hj. destruct (picked_one Hj) as (_ & Hlt & _). lia.
Qed.

(** The sum stored for a guess counts the exact matches of the decoded
    assignment. *)
Lemma guess_sum_matches (pswd : list Z) :
  usable_guess d n pswd = true ->
  eval x (guess_sum n pswd) = exact_matches n (decode x d n) pswd.
Proof.
  intros Hu. unfold guess_sum, exact_matches. rewrite eval_map.
  apply sum_ext. intros j Hj.
  unfold usable_guess in Hu. rewrite forallb_forall in Hu. specialize (Hu j Hj).
  apply in_range in Hj. rewrite (decode_nth Hj).
  destruct (nth_error pswd j) as [p|] eqn:Ep; [|discriminate Hu].
  apply andb_true_iff in Hu. destruct Hu as [H0 Hd].
  apply Z.leb_le in H0. apply Z.ltb_lt in Hd.
  rewrite (nth_error_nth _ _ 0%Z Ep).
  destruct (picked_one Hj) as (_ & _ & Hx).
  rewrite Hx by lia.
  destruct (Nat.eqb_spec (pick d x j) (Z.to_nat p)), (Z.eqb_spec (Z.of_nat (pick d x j)) p);
    try reflexivity; lia.
Qed.

End Decode.

(** ** The string of a suggestion determines its symbols *)

Lemma str_no_space (i : nat) : no_space (str i).
Proof.
  unfold str. induction (Nat.to_uint i); simpl; try exact I; (split; [discriminate | assumption]).
Qed.

Lemma str_inj (i k : nat) : str i = str k -> i = k.
Proof.
  unfold str. intros H. apply Unsigned.to_uint_inj.
  apply (f_equal NilEmpty.uint_of_string) in H.
  rewrite !NilEmpty.usu in H. now injection H.
Qed.

Lemma render_headed (a : list nat) : headed (render a).
Proof. destruct a as [|i a]; [now left | right; simpl; eauto]. Qed.

Lemma split_at_space (s1 s2 r1 r2 : string) :
  no_space s1 -> no_space s2 -> headed r1 -> headed r2 ->
  (s1 ++ r1)%string = (s2 ++ r2)%string -> s1 = s2 /\ r1 = r2.
Proof.
  revert s2. induction s1 as [|c s1 IH]; intros [|c' s2] N1 N2 H1 H2 E; simpl in *.
  - now split.
  - destruct H1 as [->|[r ->]]; [discriminate E|].
    injection E as Ec _. destruct N2 as [Nc _]. now subst.
  - destruct H2 as [->|[r ->]]; [discriminate E|].
    injection E as Ec _. destruct N1 as [Nc _]. now subst.
  - injection E as -> E. destruct N1 as [_ N1], N2 as [_ N2].
    destruct (IH s2 N1 N2 H1 H2 E) as [-> ->]. now split.
Qed.

Lemma render_inj (a b : list nat) : render a = render b -> a = b.
Proof.
  revert b. induction a as [|i a IH]; intros [|k b] E; simpl in E;
    try reflexivity; try discriminate E.
  injection E as E.
  destruct (split_at_space _ _ (str_no_space i) (str_no_space k)
                           (render_headed a) (render_headed b) E) as [Es Er].
  now rewrite (str_inj _ _ Es), (IH b Er).
Qed.

Lemma render_truthy (a : list nat) : truthy (PyStr (render a)) = negb (Nat.eqb (List.length a) 0).
Proof. destruct a; reflexivity. Qed.

(** ** What [new_guess] returns under a sound solver *)

Lemma check_solution_true (M : MPSolver) (x : var -> Z) :
  check_solution M x = true <-> is_solution M x.
Proof.
  unfold check_solution, is_solution.
  rewrite andb_true_iff, !forallb_forall. split; intros [Hv Hc]; split.
  - intros v Hin. specialize (Hv v Hin). apply andb_true_iff in Hv. lia.
  - intros e rhs Hin. specialize (Hc (e, rhs) Hin). simpl in Hc. lia.
  - intros v Hin. specialize (Hv v Hin). apply andb_true_iff. lia.
  - intros [e rhs] Hin. simpl. apply Z.eqb_eq. now apply Hc.
Qed.

Lemma in_variables (d n : Z) (i j : nat) :
  i < Z.to_nat d -> j < Z.to_nat n -> In (i, j) (variables (solver (__init__ d n))).
Proof.
  intros Hi Hj. simpl. apply in_flat_map. exists i. split; [now apply in_range|].
  apply in_map_iff. exists j. split; [reflexivity | now apply in_range].
Qed.

Lemma new_guess_cases (S : Solver) (d n : Z) (cs : list linear_constraint) :
  sound_on S (solver (engine d n cs)) ->
  (found_solution (S (solver (engine d n cs))) = true /\
   exists x, is_solution (solver (engine d n cs)) x /\
             fst (new_guess S (engine d n cs)) = Returns (PyStr (render (decode x d n)))) \/
  (found_solution (S (solver (engine d n cs))) = false /\
   (fst (new_guess S (engine d n cs)) = Returns PyFalse \/
    fst (new_guess S (engine d n cs)) = Returns (PyStr EmptyString))).
Proof.
  intros Hs. unfold new_guess, new_guess_try, sound_on in *. cbn [fst].
  destruct (S (solver (engine d n cs))) as [r|e]; cbn [bind found_solution].
  - specialize (Hs r eq_refl). destruct (has_solution (status r)).
    + left. split; [reflexivity|]. destruct Hs as (x & Hx & Hr). exists x. split; [exact Hx|].
      cbn [X digits length engine].
      rewrite (@scan_solved d n (solution_value r) x).
      * reflexivity.
      * intros i j Hi Hj. apply Hr. now apply in_variables.
      * intros j Hj. now apply in_range.
    + right. split; [reflexivity|].
      destruct (@scan_blank (solution_value r) Hs (X (engine d n cs)) (digits (engine d n cs))
                           (range (length (engine d n cs))) EmptyString) as [E|[e E]];
        rewrite E; [now right | now left].
  - right. split; [reflexivity | now left].
Qed.

Lemma new_guess_not_found (S : Solver) (m : t) :
  sound_on S (solver m) -> found_solution (S (solver m)) = false ->
  fst (new_guess S m) = Returns PyFalse \/ fst (new_guess S m) = Returns (PyStr EmptyString).
Proof.
  intros Hs Hf. unfold new_guess, new_guess_try, sound_on in *. cbn [fst].
  destruct (S (solver m)) as [r|e]; cbn [bind found_solution] in *; [|now left].
  specialize (Hs r eq_refl). rewrite Hf in Hs.
  destruct (@scan_blank (solution_value r) Hs (X m) (digits m) (range (length m)) EmptyString)
    as [E|[e E]]; rewrite E; [now right | now left].
Qed.

Lemma sound_infeasible (S : Solver) (M : MPSolver) :
  sound_on S M -> ~ feasible M -> found_solution (S M) = false.
Proof.
  intros Hs Hn. unfold sound_on in Hs.
  destruct (S M) as [r|e]; cbn [found_solution]; [|reflexivity].
  specialize (Hs r eq_refl). destruct (has_solution (status r)); [|reflexivity].
  destruct Hs as (x & Hx & _). exfalso. apply Hn. now exists x.
Qed.

(** ** The reference solvers meet the contract *)

Lemma enum_solver_sound (M : MPSolver) : sound_on enum_solver M.
Proof.
  intros r E. unfold enum_solver, answer in E.
  destruct (find _ (tables (variables M))) as [tb|] eqn:F; injection E as <-; simpl.
  - apply find_some in F. destruct F as [_ F]. apply check_solution_true in F.
    exists (lookup tb). split; [exact F | reflexivity].
  - intros v. now left.
Qed.

Lemma fixed_solver_sound (x : var -> Z) (M : MPSolver) : sound_on (fixed_solver x) M.
Proof.
  intros r E. unfold fixed_solver, answer in E.
  destruct (check_solution M x) eqn:C; injection E as <-; simpl.
  - apply check_solution_true in C. exists x. split; [exact C | reflexivity].
  - intros v. now left.
Qed.

Lemma aborting_solver_sound (M : MPSolver) : sound_on aborting_solver M.
Proof. intros r E. injection E as <-. simpl. intros v. now left. Qed.

Lemma raising_solver_sound (M : MPSolver) : sound_on raising_solver M.
Proof. intros r E. discriminate E. Qed.

Lemma lookup_table (x : var -> Z) (vs : list var) (v : var) :
  In v vs -> lookup (map (fun w => (w, x w)) vs) v = x v.
Proof.
  induction vs as [|w vs IH]; intros Hin; [destruct Hin|].
  simpl. destruct w as [a b], v as [a' b']; simpl.
  destruct (Nat.eqb_spec a a'), (Nat.eqb_spec b b'); simpl; try (now subst);
    (destruct Hin as [E|Hin]; [injection E as -> ->; congruence | now apply IH]).
Qed.

Lemma table_listed (x : var -> Z) (vs : list var) :
  (forall v, In v vs -> (0 <= x v <= 1)%Z) -> In (map (fun w => (w, x w)) vs) (tables vs).
Proof.
  induction vs as [|w vs IH]; intros Hb; [now left|].
  simpl. apply in_or_app.
  assert (Hw : (0 <= x w <= 1)%Z) by (apply Hb; now left).
  assert (Hin : In (map (fun w => (w, x w)) vs) (tables vs)) by (apply IH; intros v Hv; apply Hb; now right).
  destruct (Z.eq_dec (x w) 0) as [E|E]; [left | right]; apply in_map_iff;
    exists (map (fun w => (w, x w)) vs); (split; [f_equal; f_equal; lia | exact Hin]).
Qed.

Lemma eval_ext (x y : var -> Z) (e : list var) :
  (forall v, In v e -> x v = y v) -> eval x e = eval y e.
Proof.
  induction e as [|v e IH]; intros H; simpl; [reflexivity|].
  rewrite (H v (or_introl eq_refl)), IH; [reflexivity|].
  intros w Hw. apply H. now right.
Qed.

Lemma enum_solver_complete (M : MPSolver) : closed_model M -> complete_on enum_solver M.
Proof.
  intros Hc [x [Hb He]]. unfold enum_solver.
  destruct (find _ (tables (variables M))) as [tb|] eqn:F; [reflexivity|].
  exfalso.
  pose proof (find_none _ _ F _ (table_listed x (variables M) Hb)) as Hn. cbv beta in Hn.
  assert (Ht : check_solution M (lookup (map (fun w => (w, x w)) (variables M))) = true).
  { apply check_solution_true. split.
    - intros v Hv. rewrite lookup_table by exact Hv. now apply Hb.
    - intros e rhs Hin. rewrite <- (He e rhs Hin). apply eval_ext.
      intros v Hv. apply lookup_table. exact (Hc e rhs v Hin Hv). }
  congruence.
Qed.

Lemma usable_guess_iff (d n : Z) (pswd : list Z) :
  usable_guess d n pswd = true <->
  Z.to_nat n <= List.length pswd /\
  forall j p, j < Z.to_nat n -> nth_error pswd j = Some p -> (0 <= p < d)%Z.
Proof.
  unfold usable_guess. rewrite forallb_forall. split.
  - intros H. split.
    + destruct (Nat.le_gt_cases (Z.to_nat n) (List.length pswd)) as [Hle|Hgt]; [exact Hle|].
      exfalso. specialize (H (List.length pswd) (proj2 (in_range n _) Hgt)).
      replace (nth_error pswd (List.length pswd)) with (@None Z) in H
        by (symmetry; apply nth_error_None; lia).
      discriminate H.
    + intros j p Hj Ep. specialize (H j (proj2 (in_range n j) Hj)). rewrite Ep in H.
      apply andb_true_iff in H. lia.
  - intros [Hlen Hsym] j Hj. apply in_range in Hj.
    destruct (nth_error pswd j) as [p|] eqn:Ep.
    + specialize (Hsym j p Hj Ep). apply andb_true_iff. lia.
    + apply nth_error_None in Ep. lia.
Qed.

Lemma engine_closed (d n : Z) (log : list (list Z * Z)) :
  closed_model (solver (run d n log)).
Proof.
  rewrite run_engine. intros e rhs v Hin Hv. simpl in Hin.
  change (variables (solver (engine d n (stored d n log))))
    with (variables (solver (__init__ d n))).
  apply in_app_or in Hin. destruct Hin as [Hin|Hin].
  - apply in_map_iff in Hin. destruct Hin as (j & E & Hj). injection E as <- _.
    apply in_map_iff in Hv. destruct Hv as (i & <- & Hi).
    apply in_variables; now apply in_range.
  - unfold stored in Hin. apply in_map_iff in Hin. destruct Hin as (c & E & Hc).
    injection E as <- _. apply filter_In in Hc. destruct Hc as [_ Hu].
    apply usable_guess_iff in Hu. destruct Hu as [Hlen Hsym].
    unfold guess_sum in Hv. apply in_map_iff in Hv. destruct Hv as (j & <- & Hj).
    apply in_range in Hj.
    destruct (nth_error (fst c) j) as [p|] eqn:Ep.
    + rewrite (nth_error_nth _ _ 0%Z Ep). specialize (Hsym j p Hj Ep).
      apply in_variables; lia.
    + apply nth_error_None in Ep. lia.
Qed.

Lemma stored_guess_matches (d n : Z) (log : list (list Z * Z)) (x : var -> Z)
      (pswd : list Z) (hit : Z) :
  is_solution (solver (engine d n (stored d n log))) x ->
  In (pswd, hit) log -> usable_guess d n pswd = true ->
  exact_matches n (decode x d n) pswd = hit.
Proof.
  intros Hx Hin Hu. rewrite <- (guess_sum_matches Hx _ Hu).
  apply (proj2 Hx). cbn [solver engine constraints].
  apply in_or_app. right. now apply in_stored.
Qed.

(** * The claims *)

(** C1.  Under a sound solver, every suggestion that [new_guess] returns as a
    usable answer (a non-empty string, the only value the caller treats as a
    suggestion) encodes an assignment of [n] symbols below [d], and for every
    call [add_restr(pswd, hit)] that stored a constraint, the number of
    positions where the assignment equals the guess is exactly [hit]. *)
Theorem new_guess_found_satisfies_constraints
        (S : Solver) (d n : Z) (log : list (list Z * Z)) (v : pyval) :
  sound_on S (solver (run d n log)) ->
  fst (new_guess S (run d n log)) = Returns v ->
  truthy v = true ->
  exists a, v = PyStr (render a) /\ is_assignment d n a /\
            forall pswd hit, In (pswd, hit) log -> usable_guess d n pswd = true ->
                             exact_matches n a pswd = hit.
Proof.
  rewrite run_engine. intros Hs Hv Ht.
  destruct (new_guess_cases Hs) as [(_ & x & Hx & E)|(_ & [E|E])];
    rewrite E in Hv; injection Hv as <-; try discriminate Ht.
  exists (decode x d n). split; [reflexivity|]. split; [exact (decode_assignment Hx)|].
  intros pswd hit Hin Hu. exact (@stored_guess_matches d n log x pswd hit Hx Hin Hu).
Qed.

Lemma new_guess_found_satisfies_constraints_witness :
  exists a, PyStr " 1 1" = PyStr (render a) /\ is_assignment 2 2 a /\
            forall pswd hit, In (pswd, hit) [([0; 1], 1)]%Z -> usable_guess 2 2 pswd = true ->
                             exact_matches 2 a pswd = hit.
Proof.
  apply (@new_guess_found_satisfies_constraints enum_solver 2 2 [([0; 1], 1)]%Z (PyStr " 1 1")).
  - apply enum_solver_sound.
  - vm_compute. reflexivity.
  - reflexivity.
Defined.

(** C10.  Whenever a sound solver reports a solution, the suggestion returned
    by [new_guess] encodes exactly [n] symbols, each below [d], the symbol of
    position [j] being the one [i] whose variable [x[i][j]] is 1. *)
Theorem new_guess_suggestion_is_assignment (S : Solver) (d n : Z) (log : list (list Z * Z)) :
  sound_on S (solver (run d n log)) ->
  found_solution (S (solver (run d n log))) = true ->
  exists a x,
    fst (new_guess S (run d n log)) = Returns (PyStr (render a)) /\
    is_assignment d n a /\
    is_solution (solver (run d n log)) x /\
    forall i j, i < Z.to_nat d -> j < Z.to_nat n ->
                (x (i, j) = 1%Z <-> nth_error a j = Some i).
Proof.
  rewrite run_engine. intros Hs Hf.
  destruct (new_guess_cases Hs) as [(_ & x & Hx & E)|(Hf' & _)]; [|congruence].
  exists (decode x d n), x. split; [exact E|]. split; [exact (decode_assignment Hx)|].
  split; [exact Hx|]. intros i j Hi Hj.
  rewrite (decode_nth Hx Hj). destruct (picked_one Hx Hj) as (_ & _ & Hcell).
  rewrite (Hcell i Hi). destruct (Nat.eqb_spec (pick d x j) i) as [->|Hne]; split; intros H;
    try reflexivity; try discriminate H.
  injection H as H. contradiction.
Qed.

Lemma new_guess_suggestion_is_assignment_witness :
  exists a x,
    fst (new_guess enum_solver (run 3 2 [([2; 0], 2)]%Z)) = Returns (PyStr (render a)) /\
    is_assignment 3 2 a /\
    is_solution (solver (run 3 2 [([2; 0], 2)]%Z)) x /\
    forall i j, i < Z.to_nat 3 -> j < Z.to_nat 2 ->
                (x (i, j) = 1%Z <-> nth_error a j = Some i).
Proof.
  apply (@new_guess_suggestion_is_assignment enum_solver 3 2 [([2; 0], 2)]%Z).
  - apply enum_solver_sound.
  - vm_compute. reflexivity.
Defined.



Lemma contradictory_infeasible : ~ feasible (solver contradictory).
Proof.
  intros (x & _ & Hc).
  assert (H1 : eval x [(0, 0)] = 1%Z) by (apply Hc; vm_compute; tauto).
  assert (H0 : eval x [(0, 0)] = 0%Z) by (apply Hc; vm_compute; tauto).
  congruence.
Qed.

(** C2, as the code has it.  With a sound solver, contradictory constraints
    make [new_guess] return [False] or the empty string, without raising;
    this holds for the engine of the example; and any other solve that ends
    without a solution (aborted, failed) produces the same two values. *)
Theorem new_guess_infeasible_no_suggestion (S : Solver) :
  (forall m, sound_on S (solver m) -> ~ feasible (solver m) ->
             no_suggestion (fst (new_guess S m))) /\
  (sound_on S (solver contradictory) -> no_suggestion (fst (new_guess S contradictory))) /\
  (forall m, sound_on S (solver m) -> found_solution (S (solver m)) = false ->
             no_suggestion (fst (new_guess S m))).
Proof.
  assert (H : forall m, sound_on S (solver m) -> ~ feasible (solver m) ->
                        no_suggestion (fst (new_guess S m))).
  { intros m Hs Hn. apply new_guess_not_found; [exact Hs | now apply sound_infeasible]. }
  split; [exact H|]. split.
  - intros Hs. apply H; [exact Hs | exact contradictory_infeasible].
  - intros m Hs Hf. now apply new_guess_not_found.
Qed.

Lemma new_guess_infeasible_no_suggestion_witness :
  no_suggestion (fst (new_guess enum_solver contradictory)).
Proof.
  apply (proj1 (proj2 (new_guess_infeasible_no_suggestion enum_solver))).
  apply enum_solver_sound.
Defined.

(** C2, as stated, fails: the value returned for the contradictory engine
    (the empty string when the solver reports infeasibility, [False] when the
    library raises) is the very value returned when the search on a feasible
    engine is aborted or raises, so the caller cannot tell a proof of
    infeasibility from an abort. *)
Lemma infeasible_indistinguishable_from_abort :
  ~ feasible (solver contradictory) /\
  feasible (solver (__init__ 2 1)) /\
  sound_on enum_solver (solver contradictory) /\
  sound_on aborting_solver (solver (__init__ 2 1)) /\
  sound_on raising_solver (solver contradictory) /\
  aborting_solver (solver (__init__ 2 1)) = answer ABNORMAL (fun _ => 0%Z) /\
  fst (new_guess enum_solver contradictory) = Returns (PyStr EmptyString) /\
  fst (new_guess aborting_solver (__init__ 2 1)) = Returns (PyStr EmptyString) /\
  fst (new_guess raising_solver contradictory) = Returns PyFalse /\
  fst (new_guess raising_solver (__init__ 2 1)) = Returns PyFalse.
Proof.
  split; [exact contradictory_infeasible|]. split.
  - exists (indicator [0]). apply check_solution_true. vm_compute. reflexivity.
  - split; [apply enum_solver_sound|]. split; [apply aborting_solver_sound|].
    split; [apply raising_solver_sound|].
    repeat split; reflexivity.
Qed.

(** C3, as the code has it.  [add_restr] validates nothing by itself; a
    call fails only where a lookup fails.  On an engine built by [__init__]
    and earlier calls: a guess shorter than [n] or with a symbol outside
    [0 .. d-1] among its first [n] raises [IndexError] or [KeyError] and the
    engine is unchanged, whatever [hit] is; otherwise, for every [hit] that a
    double holds exactly, inside [0 .. n] or not, the call returns and
    appends to the equalities of the solver the sum of the first [n] symbols
    with right-hand side [hit]. *)
Theorem add_restr_fails_only_on_lookups
        (d n : Z) (log : list (list Z * Z)) (pswd : list Z) (hit : Z) :
  (List.length pswd < Z.to_nat n ->
   exists e, (e = IndexError \/ e = KeyError) /\
             add_restr pswd hit (run d n log) = (Raises e, run d n log)) /\
  ((exists j p, j < Z.to_nat n /\ nth_error pswd j = Some p /\ (p < 0 \/ d <= p)%Z) ->
   exists e, (e = IndexError \/ e = KeyError) /\
             add_restr pswd hit (run d n log) = (Raises e, run d n log)) /\
  (Z.to_nat n <= List.length pswd ->
   (forall j p, j < Z.to_nat n -> nth_error pswd j = Some p -> (0 <= p < d)%Z) ->
   exact_hit hit ->
   add_restr pswd hit (run d n log) =
   (Returns tt, store (guess_sum n pswd, hit) (run d n log)) /\
   constraints (solver (snd (add_restr pswd hit (run d n log)))) =
   constraints (solver (run d n log)) ++ [(guess_sum n pswd, hit)]).
Proof.
  rewrite run_engine.
  pose proof (add_restr_engine d n (stored d n log) pswd hit) as H.
  pose proof (usable_guess_iff d n pswd) as Hu.
  destruct (usable_guess d n pswd).
  - destruct (proj1 Hu eq_refl) as [Hlen Hsym]. split; [|split].
    + intros Hlt. lia.
    + intros (j & p & Hj & Ep & Hp). specialize (Hsym j p Hj Ep). lia.
    + intros _ _ _. rewrite H. split.
      * unfold store, Add, engine; simpl. now rewrite <- app_assoc.
      * cbn [snd engine solver constraints]. now rewrite app_assoc.
  - split; [|split]; try (intros; exact H).
    intros Hlen Hsym. assert (false = true) by (apply Hu; now split). discriminate.
Qed.

Lemma add_restr_fails_only_on_lookups_witness :
  add_restr [0; 1; 1]%Z 7 (run 2 3 []) =
  (Returns tt, store (guess_sum 3 [0; 1; 1]%Z, 7%Z) (run 2 3 [])) /\
  constraints (solver (snd (add_restr [0; 1; 1]%Z 7 (run 2 3 [])))) =
  constraints (solver (run 2 3 [])) ++ [(guess_sum 3 [0; 1; 1]%Z, 7%Z)].
Proof.
  apply (proj2 (proj2 (add_restr_fails_only_on_lookups 2 3 [] [0; 1; 1]%Z 7))).
  - simpl. lia.
  - intros j p Hj Ep.
    destruct j as [|[|[|j]]]; simpl in Ep; try (injection Ep as <-; lia).
    simpl in Hj. lia.
  - unfold exact_hit. simpl. lia.
Defined.

(** C3, as stated, fails: on an engine with [n = 2] the call
    [add_restr([0, 1], 5)] returns normally and stores the equality with
    right-hand side 5; and a guess of three symbols is accepted as well. *)
Lemma add_restr_accepts_bad_match_count :
  add_restr [0; 1]%Z 5 (__init__ 2 2) =
    (Returns tt, store ([(0, 0); (1, 1)], 5%Z) (__init__ 2 2)) /\
  In ([(0, 0); (1, 1)], 5%Z) (constraints (solver (snd (add_restr [0; 1]%Z 5 (__init__ 2 2))))) /\
  fst (add_restr [0; 1; 7]%Z 1 (__init__ 2 2)) = Returns tt.
Proof.
  split; [reflexivity|]. split; [|reflexivity].
  vm_compute. tauto.
Qed.

(** ** Extra symbols *)

Lemma mapM_ext {A B : Type} (f g : A -> outcome B) (l : list A) :
  (forall a, In a l -> f a = g a) -> mapM f l = mapM g l.
Proof.
  induction l as [|a l IH]; intros H; [reflexivity|].
  cbn [mapM]. rewrite (H a (or_introl eq_refl)), IH; [reflexivity|].
  intros b Hb. apply H. now right.
Qed.

(** C9.  Symbols after the first [n] play no part: on any engine, a guess of
    [n] symbols followed by extra ones gives the same outcome and the same
    engine as the guess without them; and when the first [n] symbols are
    keys of [X] (and [hit] is a bound that a double holds exactly) the call
    returns normally and the equalities of the solver are those it had,
    followed by one new equality whose sum is made of the variables of the
    first [n] symbols only, with right-hand side [hit]. *)
Theorem add_restr_ignores_trailing_symbols :
  (forall (m : t) (pswd extra : list Z) (hit : Z),
     List.length pswd = Z.to_nat (length m) ->
     add_restr (pswd ++ extra) hit m = add_restr pswd hit m) /\
  (forall (d n : Z) (log : list (list Z * Z)) (pswd extra : list Z) (hit : Z),
     List.length pswd = Z.to_nat n ->
     usable_guess d n pswd = true ->
     exact_hit hit ->
     fst (add_restr (pswd ++ extra) hit (run d n log)) = Returns tt /\
     constraints (solver (snd (add_restr (pswd ++ extra) hit (run d n log)))) =
     constraints (solver (run d n log))
     ++ [(map (fun j => (Z.to_nat (nth j pswd 0%Z), j)) (range n), hit)]).
Proof.
  assert (H : forall (m : t) (pswd extra : list Z) (hit : Z),
             List.length pswd = Z.to_nat (length m) ->
             add_restr (pswd ++ extra) hit m = add_restr pswd hit m).
  { intros m pswd extra hit Hlen. unfold add_restr, restr_sum.
    rewrite (@mapM_ext _ _
               (fun j => s <- list_get (pswd ++ extra) j ;; r <- dict_get (X m) s ;; list_get r j)
               (fun j => s <- list_get pswd j ;; r <- dict_get (X m) s ;; list_get r j)).
    - reflexivity.
    - intros j Hj. apply in_range in Hj. unfold list_get.
      rewrite nth_error_app1 by lia. reflexivity. }
  split; [exact H|].
  intros d n log pswd extra hit Hlen Hu _.
  rewrite H by (rewrite run_engine; exact Hlen).
  rewrite run_engine.
  pose proof (add_restr_engine d n (stored d n log) pswd hit) as Ha.
  rewrite Hu in Ha. rewrite Ha. split; [reflexivity|].
  cbn [snd engine solver constraints]. now rewrite app_assoc.
Qed.

Lemma add_restr_ignores_trailing_symbols_witness :
  fst (add_restr ([1; 0] ++ [9; 4])%Z 1 (run 2 2 [])) = Returns tt /\
  constraints (solver (snd (add_restr ([1; 0] ++ [9; 4])%Z 1 (run 2 2 [])))) =
  constraints (solver (run 2 2 []))
  ++ [(map (fun j => (Z.to_nat (nth j [1; 0]%Z 0%Z), j)) (range 2), 1%Z)].
Proof.
  apply (proj2 add_restr_ignores_trailing_symbols 2 2 [] [1; 0] [9; 4] 1)%Z.
  - reflexivity.
  - reflexivity.
  - unfold exact_hit. simpl. lia.
Defined.

(** ** The five-digit example *)

Lemma in_candidates (d : nat) (a : list nat) :
  Forall (fun s => s < d) a -> In a (candidates d (List.length a)).
Proof.
  induction a as [|s a IH]; intros H; [now left|].
  inversion H as [|? ? Hs Ha]; subst. simpl.
  apply in_flat_map. exists s. split; [apply in_seq; lia|].
  apply in_map. now apply IH.
Qed.

Lemma agrees_true (n : Z) (log : list (list Z * Z)) (a : list nat) :
  agrees n log a = true <->
  forall pswd hit, In (pswd, hit) log -> exact_matches n a pswd = hit.
Proof.
  unfold agrees. rewrite forallb_forall. split.
  - intros H pswd hit Hin. specialize (H (pswd, hit) Hin). simpl in H. lia.
  - intros H [pswd hit] Hin. simpl. apply Z.eqb_eq. now apply H.
Qed.

Lemma euler_unique (a : list nat) :
  is_assignment 10 5 a ->
  (forall pswd hit, In (pswd, hit) euler_log -> exact_matches 5 a pswd = hit) ->
  a = [3; 9; 5; 4; 2].
Proof.
  intros [Hlen Hsym] Hag. apply agrees_true in Hag.
  assert (Hin : In a (candidates 10 5)).
  { change 5 with (Z.to_nat 5). rewrite <- Hlen. apply in_candidates.
    eapply Forall_impl; [|exact Hsym]. simpl. intros s Hs. lia. }
  assert (Hf : In a (filter (agrees 5 euler_log) (candidates 10 5)))
    by (apply filter_In; now split).
  assert (E : filter (agrees 5 euler_log) (candidates 10 5) = [[3; 9; 5; 4; 2]])
    by (vm_compute; reflexivity).
  rewrite E in Hf. destruct Hf as [<-|[]]. reflexivity.
Qed.

Lemma euler_usable (pswd : list Z) (hit : Z) :
  In (pswd, hit) euler_log -> usable_guess 10 5 pswd = true.
Proof.
  intros Hin. simpl in Hin.
  repeat (destruct Hin as [E|Hin]; [injection E as <- _; reflexivity|]).
  destruct Hin.
Qed.

(** C4.  With [d = 10], [n = 5] and the six guesses of the example, a sound
    and complete solver makes [new_guess] return the string of 3 9 5 4 2,
    and no other assignment has the announced exact matches with all six
    guesses. *)
Theorem euler_example_unique_answer (S : Solver) :
  sound_on S (solver (run 10 5 euler_log)) ->
  complete_on S (solver (run 10 5 euler_log)) ->
  fst (new_guess S (run 10 5 euler_log)) = Returns (PyStr " 3 9 5 4 2") /\
  forall a, is_assignment 10 5 a ->
            (forall pswd hit, In (pswd, hit) euler_log -> exact_matches 5 a pswd = hit) ->
            a = [3; 9; 5; 4; 2].
Proof.
  intros Hs Hc. split; [|exact euler_unique].
  assert (Hf : found_solution (S (solver (run 10 5 euler_log))) = true).
  { apply Hc. exists (indicator [3; 9; 5; 4; 2]).
    apply check_solution_true. vm_compute. reflexivity. }
  rewrite run_engine in *.
  destruct (new_guess_cases Hs) as [(_ & x & Hx & E)|(Hf' & _)]; [|congruence].
  rewrite E. f_equal. f_equal.
  rewrite (@euler_unique (decode x 10 5)); [reflexivity | exact (decode_assignment Hx) |].
  intros pswd hit Hin.
  exact (@stored_guess_matches 10 5 euler_log x pswd hit Hx Hin (euler_usable Hin)).
Qed.

Lemma euler_example_unique_answer_witness :
  fst (new_guess (fixed_solver (indicator [3; 9; 5; 4; 2])) (run 10 5 euler_log))
  = Returns (PyStr " 3 9 5 4 2") /\
  forall a, is_assignment 10 5 a ->
            (forall pswd hit, In (pswd, hit) euler_log -> exact_matches 5 a pswd = hit) ->
            a = [3; 9; 5; 4; 2].
Proof.
  apply (@euler_example_unique_answer (fixed_solver (indicator [3; 9; 5; 4; 2]))).
  - apply fixed_solver_sound.
  - intros _. vm_compute. reflexivity.
Defined.

(** ** One more constraint *)

Lemma run_snoc (d n : Z) (log : list (list Z * Z)) (pswd : list Z) (hit : Z) :
  snd (add_restr pswd hit (run d n log)) = run d n (log ++ [(pswd, hit)]).
Proof. unfold run. now rewrite fold_left_app. Qed.

(** C7.  If [new_guess] returned the suggestion of an assignment [a], and a
    call [add_restr(pswd, hit)] follows where [a] has exactly [hit] matches
    with [pswd], then with a solver sound on both models and complete on the
    new one the next [new_guess] again returns a non-empty suggestion, of an
    assignment of [n] symbols below [d]. *)
Theorem add_satisfied_constraint_still_found
        (S : Solver) (d n : Z) (log : list (list Z * Z)) (pswd : list Z) (hit : Z)
        (a : list nat) :
  sound_on S (solver (run d n log)) ->
  sound_on S (solver (snd (add_restr pswd hit (run d n log)))) ->
  complete_on S (solver (snd (add_restr pswd hit (run d n log)))) ->
  fst (new_guess S (run d n log)) = Returns (PyStr (render a)) ->
  truthy (PyStr (render a)) = true ->
  exact_matches n a pswd = hit ->
  exists a', fst (new_guess S (snd (add_restr pswd hit (run d n log))))
             = Returns (PyStr (render a')) /\
             truthy (PyStr (render a')) = true /\
             is_assignment d n a'.
Proof.
  rewrite run_snoc, !run_engine. intros Hs Hs' Hc Hv Ht Hm.
  destruct (new_guess_cases Hs) as [(_ & x & Hx & E)|(_ & [E|E])];
    rewrite E in Hv; injection Hv as Hv; try (rewrite <- Hv in Ht; discriminate Ht).
  apply render_inj in Hv. subst a.
  assert (Hfe : feasible (solver (engine d n (stored d n (log ++ [(pswd, hit)]))))).
  { exists x. destruct Hx as [Hb He]. split; [exact Hb|].
    intros e rhs Hin. cbn [solver engine constraints] in Hin.
    unfold stored in Hin. rewrite filter_app, map_app, app_assoc in Hin.
    apply in_app_or in Hin. destruct Hin as [Hin|Hin]; [now apply He|].
    cbn [filter fst] in Hin. destruct (usable_guess d n pswd) eqn:Hu; [|destruct Hin].
    destruct Hin as [Hin|[]]. injection Hin as <- <-.
    rewrite <- Hm.
    apply (@guess_sum_matches d n (stored d n log) x (conj Hb He) pswd Hu). }
  specialize (Hc Hfe).
  destruct (new_guess_cases Hs') as [(_ & x' & Hx' & E')|(Hf' & _)]; [|congruence].
  exists (decode x' d n). split; [exact E'|].
  pose proof (decode_assignment Hx') as Ha'. split; [|exact Ha'].
  rewrite render_truthy in *.
  destruct Ha' as [Hlen' _]. destruct (decode_assignment Hx) as [Hlen _].
  rewrite Hlen in Ht. now rewrite Hlen'.
Qed.

Lemma add_satisfied_constraint_still_found_witness :
  exists a', fst (new_guess enum_solver (snd (add_restr [1; 1]%Z 2 (run 2 2 [([0; 1], 1)]%Z))))
             = Returns (PyStr (render a')) /\
             truthy (PyStr (render a')) = true /\
             is_assignment 2 2 a'.
Proof.
  apply (@add_satisfied_constraint_still_found enum_solver 2 2 [([0; 1], 1)]%Z [1; 1]%Z 2 [1; 1]).
  - apply enum_solver_sound.
  - apply enum_solver_sound.
  - rewrite run_snoc. apply enum_solver_complete, engine_closed.
  - vm_compute. reflexivity.
  - reflexivity.
  - reflexivity.
Defined.

(** * Further properties of the code *)

(** ** The model built by [__init__] *)

Lemma row_NoDup (js : list nat) (i : nat) : NoDup js -> NoDup (map (fun j => (i, j)) js).
Proof.
  intros H. induction H as [|j js Hn _ IH]; simpl; constructor; [|exact IH].
  intros Hin. apply in_map_iff in Hin. destruct Hin as (k & E & Hk).
  injection E as ->. contradiction.
Qed.

Lemma grid_NoDup (js rws : list nat) :
  NoDup js -> NoDup rws -> NoDup (flat_map (fun i => map (fun j => (i, j)) js) rws).
Proof.
  intros Hj Hi. induction Hi as [|i rws Hn _ IH]; simpl; [constructor|].
  apply NoDup_app; [now apply row_NoDup | exact IH |].
  intros [a b] Ha Hb. apply in_map_iff in Ha. destruct Ha as (k & E & _).
  injection E as <- <-. apply in_flat_map in Hb. destruct Hb as (i' & Hi' & Hb).
  apply in_map_iff in Hb. destruct Hb as (k' & E & _). injection E as -> _.
  contradiction.
Qed.

Lemma grid_length (js rws : list nat) :
  List.length (flat_map (fun i => map (fun j => (i, j)) js) rws)
  = List.length rws * List.length js.
Proof.
  induction rws as [|i rws IH]; simpl; [reflexivity|].
  now rewrite length_app, length_map, IH.
Qed.

(** X1.  The constructor creates [d * n] pairwise distinct variables, exactly
    those [x[i][j]] with [i] in [range(d)] and [j] in [range(n)]; it installs
    [n] equalities, the one of position [j] summing the [d] variables of
    column [j] to 1; and [X[i][j]] is the variable [x[i][j]]. *)
Theorem init_model_shape (d n : Z) :
  List.length (variables (solver (__init__ d n))) = Z.to_nat d * Z.to_nat n /\
  NoDup (variables (solver (__init__ d n))) /\
  (forall i j, In (i, j) (variables (solver (__init__ d n)))
               <-> i < Z.to_nat d /\ j < Z.to_nat n) /\
  List.length (constraints (solver (__init__ d n))) = Z.to_nat n /\
  (forall j, j < Z.to_nat n ->
             nth_error (constraints (solver (__init__ d n))) j
             = Some (map (fun i => (i, j)) (range d), 1%Z)) /\
  (forall i j, i < Z.to_nat d -> j < Z.to_nat n ->
               (r <- dict_get (X (__init__ d n)) (Z.of_nat i) ;; list_get r j)
               = Returns (i, j)).
Proof.
  cbn [__init__ solver variables constraints X]. unfold range.
  split; [now rewrite grid_length, !length_seq|].
  split; [apply grid_NoDup; apply seq_NoDup|].
  split; [|split; [now rewrite length_map, length_seq|split]].
  - intros i j. rewrite in_flat_map. split.
    + intros (i' & Hi & Hin). apply in_map_iff in Hin. destruct Hin as (j' & E & Hj).
      injection E as -> ->. apply in_seq in Hi, Hj. lia.
    + intros [Hi Hj]. exists i. split; [apply in_seq; lia|].
      apply in_map_iff. exists j. split; [reflexivity | apply in_seq; lia].
  - intros j Hj. rewrite nth_error_map, nth_error_seq.
    replace (j <? Z.to_nat n) with true by (symmetry; apply Nat.ltb_lt; lia).
    reflexivity.
  - intros i j Hi Hj.
    change (map (fun i0 => map (fun j0 => (i0, j0)) (seq 0 (Z.to_nat n))) (seq 0 (Z.to_nat d)))
      with (X (__init__ d n)).
    rewrite X_row.
    replace ((0 <=? Z.of_nat i) && (Z.of_nat i <? d))%Z with true
      by (symmetry; apply andb_true_iff; split; [apply Z.leb_le | apply Z.ltb_lt]; lia).
    cbn [bind]. rewrite Nat2Z.id. unfold var in *. now apply X_cell.
Qed.

Lemma init_model_shape_witness :
  nth_error (constraints (solver (__init__ 3 2))) 1
  = Some (map (fun i => (i, 1)) (range 3), 1%Z).
Proof.
  apply (proj1 (proj2 (proj2 (proj2 (proj2 (init_model_shape 3 2)))))). simpl. lia.
Defined.

(** ** Degenerate dimensions *)

Lemma scan_no_rows (sv : var -> outcome Q) (X : list (list var)) (d : Z)
      (cols : list nat) (s : string) :
  (d <= 0)%Z -> scan sv X d cols s = Returns s.
Proof.
  intros Hd. unfold range. induction cols as [|j cols IH]; [reflexivity|].
  cbn [scan]. unfold range. replace (Z.to_nat d) with 0 by lia. cbn [seq scan_column bind].
  exact IH.
Qed.

(** X3.  With no symbol ([d <= 0]) or no position ([n <= 0]) the loops of
    [new_guess] append nothing: whatever the solver answers, the call returns
    the empty string, and [False] when the solver raises; it never returns a
    suggestion. *)
Theorem new_guess_degenerate (S : Solver) (m : t) :
  (digits m <= 0)%Z \/ (length m <= 0)%Z ->
  (forall r, S (solver m) = Returns r -> fst (new_guess S m) = Returns (PyStr EmptyString)) /\
  (forall e, S (solver m) = Raises e -> fst (new_guess S m) = Returns PyFalse) /\
  no_suggestion (fst (new_guess S m)).
Proof.
  intros Hdeg.
  assert (H : forall r, S (solver m) = Returns r ->
                        fst (new_guess S m) = Returns (PyStr EmptyString)).
  { intros r E. unfold new_guess, new_guess_try. cbn [fst]. rewrite E. cbn [bind].
    destruct Hdeg as [Hd|Hn].
    - now rewrite scan_no_rows.
    - unfold range. replace (Z.to_nat (length m)) with 0 by lia. reflexivity. }
  assert (H' : forall e, S (solver m) = Raises e -> fst (new_guess S m) = Returns PyFalse).
  { intros e E. unfold new_guess, new_guess_try. cbn [fst]. now rewrite E. }
  split; [exact H|]. split; [exact H'|].
  destruct (S (solver m)) as [r|e] eqn:E; [right; now apply (H r) | left; now apply (H' e)].
Qed.

Lemma new_guess_degenerate_witness :
  no_suggestion (fst (new_guess (fixed_solver (fun _ => 1%Z)) (__init__ 0 3))).
Proof.
  apply (new_guess_degenerate (fixed_solver (fun _ => 1%Z)) (__init__ 0 3)).
  left. simpl. lia.
Defined.

(** X4.  With no symbol and at least one position, [X] has no key: every call of
    [add_restr] raises ([IndexError] on an empty guess, [KeyError]
    otherwise) and stores nothing. *)
Theorem add_restr_without_symbols (d n : Z) (log : list (list Z * Z)) (pswd : list Z) (hit : Z) :
  (d <= 0)%Z -> (1 <= n)%Z ->
  exists e, (e = IndexError \/ e = KeyError) /\
            add_restr pswd hit (run d n log) = (Raises e, run d n log).
Proof.
  intros Hd Hn. rewrite run_engine.
  pose proof (add_restr_engine d n (stored d n log) pswd hit) as H.
  destruct (usable_guess d n pswd) eqn:Hu; [|exact H].
  apply usable_guess_iff in Hu. destruct Hu as [Hlen Hsym].
  destruct (nth_error pswd 0) as [p|] eqn:Ep.
  - specialize (Hsym 0 p ltac:(lia) Ep). lia.
  - apply nth_error_None in Ep. lia.
Qed.

Lemma add_restr_without_symbols_witness :
  exists e, (e = IndexError \/ e = KeyError) /\
            add_restr [0]%Z 0 (run 0 1 []) = (Raises e, run 0 1 []).
Proof.
  apply (@add_restr_without_symbols 0 1 [] [0]%Z 0); lia.
Defined.

(** ** Feasible models and consistent codes *)

Lemma sum_bounds (f : nat -> Z) (l : list nat) :
  (forall i, In i l -> (0 <= f i <= 1)%Z) ->
  (0 <= sum f l <= Z.of_nat (List.length l))%Z.
Proof.
  unfold sum. induction l as [|i l IH]; intros H; [simpl; lia|].
  assert (Hi := H i (or_introl eq_refl)).
  assert (Hl := IH (fun k Hk => H k (or_intror Hk))).
  cbn [map fold_right List.length]. lia.
Qed.

Lemma sum_full (f : nat -> Z) (l : list nat) :
  (forall i, In i l -> (0 <= f i <= 1)%Z) ->
  (sum f l = Z.of_nat (List.length l) <-> forall i, In i l -> f i = 1%Z).
Proof.
  induction l as [|i l IH]; intros H; [split; [intros _ k [] | reflexivity]|].
  assert (Hi := H i (or_introl eq_refl)).
  assert (Hl : forall k, In k l -> (0 <= f k <= 1)%Z) by (intros k Hk; apply H; now right).
  pose proof (sum_bounds f l Hl) as Hb. specialize (IH Hl).
  unfold sum in *. cbn [map fold_right List.length]. split.
  - intros E k [<-|Hk]; [lia | apply IH; [lia | exact Hk]].
  - intros Hall. rewrite (Hall i (or_introl eq_refl)).
    rewrite (proj2 IH (fun k Hk => Hall k (or_intror Hk))). lia.
Qed.

Lemma sum_one_hot (s a k : nat) :
  sum (fun i => if Nat.eqb s i then 1%Z else 0%Z) (seq a k)
  = if (a <=? s) && (s <? a + k) then 1%Z else 0%Z.
Proof.
  revert a. unfold sum. induction k as [|k IH]; intros a.
  - simpl. destruct (a <=? s) eqn:E1, (s <? a + 0) eqn:E2; try reflexivity.
    apply Nat.leb_le in E1. apply Nat.ltb_lt in E2. lia.
  - cbn [seq map fold_right]. rewrite IH.
    destruct (Nat.eqb_spec s a), (Nat.leb_spec a s), (Nat.ltb_spec s (a + Datatypes.S k)),
      (Nat.leb_spec (Datatypes.S a) s), (Nat.ltb_spec s (Datatypes.S a + k));
      simpl; try reflexivity; lia.
Qed.

Lemma exact_matches_bounds (n : Z) (a : list nat) (pswd : list Z) :
  (0 <= exact_matches n a pswd <= Z.of_nat (Z.to_nat n))%Z.
Proof.
  pose proof (@sum_bounds
                (fun j => match nth_error a j, nth_error pswd j with
                          | Some s, Some p => if (Z.of_nat s =? p)%Z then 1%Z else 0%Z
                          | _, _ => 0%Z
                          end) (range n)) as H.
  unfold range in H. rewrite length_seq in H. apply H.
  intros j _. destruct (nth_error a j); [|lia]. destruct (nth_error pswd j); [|lia].
  destruct (Z.of_nat n0 =? z)%Z; lia.
Qed.

(** The indicator of a consistent code solves the model. *)
Lemma indicator_solves (d n : Z) (log : list (list Z * Z)) (c : list nat) :
  consistent d n log c -> is_solution (solver (run d n log)) (indicator c).
Proof.
  intros [[Hlen Hsym] Hcons]. rewrite run_engine. split.
  - intros v _. unfold indicator. destruct (nth_error c (snd v)); [|lia].
    destruct (Nat.eqb n0 (fst v)); lia.
  - intros e rhs Hin. cbn [solver engine constraints] in Hin.
    apply in_app_or in Hin. destruct Hin as [Hin|Hin].
    + cbn [__init__ solver constraints] in Hin. apply in_map_iff in Hin.
      destruct Hin as (j & E & Hj). injection E as <- <-. apply in_range in Hj.
      rewrite eval_map. unfold indicator. cbn [fst snd].
      destruct (nth_error c j) as [s|] eqn:Es; [|apply nth_error_None in Es; lia].
      unfold range. rewrite sum_one_hot.
      rewrite Forall_forall in Hsym. specialize (Hsym s (nth_error_In _ _ Es)).
      destruct (Nat.leb_spec 0 s), (Nat.ltb_spec s (0 + Z.to_nat d)); simpl; try reflexivity; lia.
    + unfold stored in Hin. apply in_map_iff in Hin. destruct Hin as ([p h] & E & Hc).
      cbn [fst snd] in E. injection E as <- <-. apply filter_In in Hc.
      destruct Hc as [Hin Hu]. cbn [fst] in Hu.
      rewrite <- (Hcons p h Hin Hu).
      unfold guess_sum, exact_matches. rewrite eval_map. apply sum_ext.
      intros j Hj. unfold indicator. cbn [fst snd].
      unfold usable_guess in Hu. rewrite forallb_forall in Hu. specialize (Hu j Hj).
      destruct (nth_error p j) as [pj|] eqn:Ep; [|discriminate Hu].
      apply andb_true_iff in Hu. destruct Hu as [H0 _]. apply Z.leb_le in H0.
      rewrite (nth_error_nth _ _ 0%Z Ep).
      destruct (nth_error c j) as [s|]; [|reflexivity].
      destruct (Nat.eqb_spec s (Z.to_nat pj)), (Z.eqb_spec (Z.of_nat s) pj);
        try reflexivity; lia.
Qed.

Lemma solution_consistent (d n : Z) (log : list (list Z * Z)) (x : var -> Z) :
  is_solution (solver (engine d n (stored d n log))) x -> consistent d n log (decode x d n).
Proof.
  intros Hx. split; [exact (decode_assignment Hx)|].
  intros pswd hit Hin Hu. exact (@stored_guess_matches d n log x pswd hit Hx Hin Hu).
Qed.

Lemma feasible_has_consistent (d n : Z) (log : list (list Z * Z)) :
  feasible (solver (run d n log)) -> exists c, consistent d n log c.
Proof.
  intros [x Hx]. rewrite run_engine in Hx. exists (decode x d n).
  now apply solution_consistent.
Qed.

(** X5.  The integer program says what the game says: the model reached after
    [Mastermind(d, n)] and the calls of [log] has a solution exactly when
    some code of [n] symbols below [d] has, with every guess that was stored,
    the announced number of exact matches. *)
Theorem feasible_iff_consistent_code (d n : Z) (log : list (list Z * Z)) :
  feasible (solver (run d n log)) <-> exists c, consistent d n log c.
Proof.
  split.
  - apply feasible_has_consistent.
  - intros [c Hc]. exists (indicator c). now apply indicator_solves.
Qed.

Lemma suggestion_consistent (S : Solver) (d n : Z) (log : list (list Z * Z)) (a : list nat) :
  sound_on S (solver (run d n log)) ->
  fst (new_guess S (run d n log)) = Returns (PyStr (render a)) ->
  truthy (PyStr (render a)) = true ->
  consistent d n log a.
Proof.
  rewrite run_engine. intros Hs Hv Ht.
  destruct (new_guess_cases Hs) as [(_ & x & Hx & E)|(_ & [E|E])];
    rewrite E in Hv; injection Hv as Hv; try (rewrite <- Hv in Ht; discriminate Ht).
  apply render_inj in Hv. subst a. now apply solution_consistent.
Qed.

Lemma truthy_suggestion (S : Solver) (d n : Z) (log : list (list Z * Z)) (v : pyval) :
  sound_on S (solver (run d n log)) ->
  fst (new_guess S (run d n log)) = Returns v -> truthy v = true ->
  exists a, v = PyStr (render a) /\ consistent d n log a.
Proof.
  rewrite run_engine. intros Hs Hv Ht.
  destruct (new_guess_cases Hs) as [(_ & x & Hx & E)|(_ & [E|E])];
    rewrite E in Hv; injection Hv as <-; try discriminate Ht.
  exists (decode x d n). split; [reflexivity | now apply solution_consistent].
Qed.

Lemma consistent_gives_suggestion (S : Solver) (d n : Z) (log : list (list Z * Z))
      (c : list nat) :
  (1 <= n)%Z ->
  sound_on S (solver (run d n log)) ->
  complete_on S (solver (run d n log)) ->
  consistent d n log c ->
  exists a, fst (new_guess S (run d n log)) = Returns (PyStr (render a)) /\
            truthy (PyStr (render a)) = true /\ consistent d n log a.
Proof.
  intros Hn Hs Hc Hcons.
  assert (Hfe : feasible (solver (run d n log)))
    by (exists (indicator c); now apply indicator_solves).
  specialize (Hc Hfe). rewrite run_engine in *.
  destruct (new_guess_cases Hs) as [(_ & x & Hx & E)|(Hf' & _)]; [|congruence].
  exists (decode x d n). split; [exact E|].
  pose proof (solution_consistent _ Hx) as Ha. split; [|exact Ha].
  rewrite render_truthy. destruct Ha as [[Hlen _] _]. rewrite Hlen.
  destruct (Nat.eqb_spec (Z.to_nat n) 0); [lia | reflexivity].
Qed.

(** X6.  With a sound and complete solver, at least one position and bounds
    that the solver holds exactly, [new_guess] returns a suggestion exactly
    when some code is consistent with the stored feedback; and whatever
    suggestion it returns is the text of such a code. *)
Theorem suggestion_iff_consistent_code (S : Solver) (d n : Z) (log : list (list Z * Z)) :
  (1 <= n)%Z ->
  (forall pswd hit, In (pswd, hit) log -> exact_hit hit) ->
  sound_on S (solver (run d n log)) ->
  complete_on S (solver (run d n log)) ->
  ((exists c, consistent d n log c) <->
   (exists v, fst (new_guess S (run d n log)) = Returns v /\ truthy v = true)) /\
  (forall v, fst (new_guess S (run d n log)) = Returns v -> truthy v = true ->
             exists a, v = PyStr (render a) /\ consistent d n log a).
Proof.
  intros Hn _ Hs Hc. split; [split|].
  - intros [c Hcons].
    destruct (consistent_gives_suggestion Hn Hs Hc Hcons) as (a & Ea & Ht & _).
    exists (PyStr (render a)). now split.
  - intros (v & Ev & Ht).
    destruct (@truthy_suggestion S d n log v Hs Ev Ht) as (a & _ & Ha). now exists a.
  - intros v Ev Ht. exact (@truthy_suggestion S d n log v Hs Ev Ht).
Qed.

Lemma suggestion_iff_consistent_code_witness :
  ((exists c, consistent 3 2 [([0; 1], 1); ([2; 1], 1)]%Z c) <->
   (exists v, fst (new_guess enum_solver (run 3 2 [([0; 1], 1); ([2; 1], 1)]%Z)) = Returns v /\
              truthy v = true)) /\
  (forall v, fst (new_guess enum_solver (run 3 2 [([0; 1], 1); ([2; 1], 1)]%Z)) = Returns v ->
             truthy v = true ->
             exists a, v = PyStr (render a) /\ consistent 3 2 [([0; 1], 1); ([2; 1], 1)]%Z a).
Proof.
  apply (@suggestion_iff_consistent_code enum_solver 3 2 [([0; 1], 1); ([2; 1], 1)]%Z).
  - lia.
  - intros pswd hit [E|[E|[]]]; injection E as _ <-; unfold exact_hit; simpl; lia.
  - apply enum_solver_sound.
  - apply enum_solver_complete, engine_closed.
Defined.

(** ** Adding constraints *)

Lemma stored_app (d n : Z) (log extra : list (list Z * Z)) :
  stored d n (log ++ extra) = stored d n log ++ stored d n extra.
Proof. unfold stored. now rewrite filter_app, map_app. Qed.

(** X7.  Constraints are only ever added: every solution of the model after
    further calls of [add_restr] solves the model before them; hence, under
    a sound solver, once the model has no solution no later call brings a
    suggestion back. *)
Theorem infeasible_forever (S : Solver) (d n : Z) (log extra : list (list Z * Z)) :
  (forall x, is_solution (solver (run d n (log ++ extra))) x ->
             is_solution (solver (run d n log)) x) /\
  (sound_on S (solver (run d n (log ++ extra))) ->
   ~ feasible (solver (run d n log)) ->
   no_suggestion (fst (new_guess S (run d n (log ++ extra))))).
Proof.
  assert (H : forall x, is_solution (solver (run d n (log ++ extra))) x ->
                        is_solution (solver (run d n log)) x).
  { intros x. rewrite !run_engine, stored_app. intros [Hb Hc]. split; [exact Hb|].
    intros e rhs Hin. apply Hc. cbn [solver engine constraints] in *.
    rewrite app_assoc. apply in_or_app. now left. }
  split; [exact H|]. intros Hs Hn.
  apply new_guess_not_found; [exact Hs|]. apply sound_infeasible; [exact Hs|].
  intros [x Hx]. apply Hn. exists x. now apply H.
Qed.

Lemma infeasible_forever_witness :
  no_suggestion (fst (new_guess enum_solver
                                (run 2 1 ([([0], 1); ([0], 0)] ++ [([1], 1)])%Z))).
Proof.
  apply (proj2 (infeasible_forever enum_solver 2 1 [([0], 1); ([0], 0)]%Z [([1], 1)]%Z)).
  - apply enum_solver_sound.
  - exact contradictory_infeasible.
Defined.

(** X8.  The feasible region does not depend on the order in which the feedback
    was entered, nor on repetitions: two logs with the same entries give
    models with the same solutions. *)
Theorem solutions_ignore_order (d n : Z) (log1 log2 : list (list Z * Z)) (x : var -> Z) :
  (forall c, In c log1 <-> In c log2) ->
  (is_solution (solver (run d n log1)) x <-> is_solution (solver (run d n log2)) x).
Proof.
  intros Hsame.
  assert (H : forall l1 l2, (forall c, In c l1 -> In c l2) ->
                            is_solution (solver (run d n l2)) x ->
                            is_solution (solver (run d n l1)) x).
  { intros l1 l2 Hsub. rewrite !run_engine. intros [Hb Hc]. split; [exact Hb|].
    intros e rhs Hin. apply Hc. cbn [solver engine constraints] in *.
    apply in_app_or in Hin. apply in_or_app. destruct Hin as [Hin|Hin]; [now left | right].
    unfold stored in *. apply in_map_iff in Hin. destruct Hin as (c & E & Hcin).
    apply in_map_iff. exists c. split; [exact E|].
    apply filter_In in Hcin. apply filter_In. split; [apply Hsub|]; tauto. }
  split; apply H; intros c; apply Hsame.
Qed.

Lemma solutions_ignore_order_witness :
  is_solution (solver (run 2 2 [([0; 1], 1); ([1; 1], 2)]%Z)) (indicator [1; 1]) <->
  is_solution (solver (run 2 2 [([1; 1], 2); ([0; 1], 1); ([1; 1], 2)]%Z)) (indicator [1; 1]).
Proof.
  apply (@solutions_ignore_order 2 2 [([0; 1], 1); ([1; 1], 2)]%Z
                                 [([1; 1], 2); ([0; 1], 1); ([1; 1], 2)]%Z).
  intros c. simpl. tauto.
Defined.

(** X9.  A number of matches below 0 or above [n], which [add_restr] stores
    like any other bound that a double holds exactly, leaves the model
    without solution: under a sound solver [new_guess] has no suggestion
    from then on. *)
Theorem impossible_hit_blocks (S : Solver) (d n : Z) (log : list (list Z * Z))
        (pswd : list Z) (hit : Z) :
  (forall p h, In (p, h) log -> exact_hit h) ->
  In (pswd, hit) log -> usable_guess d n pswd = true ->
  (hit < 0 \/ Z.of_nat (Z.to_nat n) < hit)%Z ->
  In (guess_sum n pswd, hit) (constraints (solver (run d n log))) /\
  ~ feasible (solver (run d n log)) /\
  (sound_on S (solver (run d n log)) -> no_suggestion (fst (new_guess S (run d n log)))).
Proof.
  intros _ Hin Hu Hh.
  assert (Hn : ~ feasible (solver (run d n log))).
  { intros Hf. apply feasible_has_consistent in Hf. destruct Hf as (c & _ & Hc).
    pose proof (exact_matches_bounds n c pswd) as Hb.
    rewrite (Hc pswd hit Hin Hu) in Hb. lia. }
  split; [|split; [exact Hn|]].
  - rewrite run_engine. cbn [solver engine constraints].
    apply in_or_app. right. now apply in_stored.
  - intros Hs. apply new_guess_not_found; [exact Hs | now apply sound_infeasible].
Qed.

Lemma impossible_hit_blocks_witness :
  In (guess_sum 2 [0; 1]%Z, 5%Z) (constraints (solver (run 2 2 [([0; 1], 5)]%Z))) /\
  ~ feasible (solver (run 2 2 [([0; 1], 5)]%Z)) /\
  (sound_on enum_solver (solver (run 2 2 [([0; 1], 5)]%Z)) ->
   no_suggestion (fst (new_guess enum_solver (run 2 2 [([0; 1], 5)]%Z)))).
Proof.
  apply (@impossible_hit_blocks enum_solver 2 2 [([0; 1], 5)]%Z [0; 1]%Z 5).
  - intros p h [E|[]]. injection E as _ <-. unfold exact_hit. simpl. lia.
  - now left.
  - reflexivity.
  - right. simpl. lia.
Defined.

Lemma firstn_agree (k : nat) (p1 p2 : list Z) (j : nat) :
  firstn k p1 = firstn k p2 -> j < k -> nth_error p1 j = nth_error p2 j.
Proof.
  intros E Hj. pose proof (nth_error_firstn k p1 j) as H1.
  pose proof (nth_error_firstn k p2 j) as H2.
  replace (j <? k) with true in * by (symmetry; apply Nat.ltb_lt; lia).
  rewrite <- H1, <- H2, E. reflexivity.
Qed.

Lemma forallb_agree {A : Type} (f g : A -> bool) (l : list A) :
  (forall a, In a l -> f a = g a) -> forallb f l = forallb g l.
Proof.
  induction l as [|a l IH]; intros H; [reflexivity|].
  cbn [forallb]. rewrite (H a (or_introl eq_refl)), IH; [reflexivity|].
  intros b Hb. apply H. now right.
Qed.

Lemma usable_guess_ext (d n : Z) (p1 p2 : list Z) :
  firstn (Z.to_nat n) p1 = firstn (Z.to_nat n) p2 ->
  usable_guess d n p1 = usable_guess d n p2.
Proof.
  intros E. unfold usable_guess. apply forallb_agree. intros j Hj. apply in_range in Hj.
  now rewrite (firstn_agree _ _ E Hj).
Qed.

Lemma exact_matches_ext (n : Z) (a : list nat) (p1 p2 : list Z) :
  firstn (Z.to_nat n) p1 = firstn (Z.to_nat n) p2 ->
  exact_matches n a p1 = exact_matches n a p2.
Proof.
  intros E. unfold exact_matches. f_equal. apply map_ext_in. intros j Hj.
  apply in_range in Hj. now rewrite (firstn_agree _ _ E Hj).
Qed.

(** X10.  Two stored guesses with the same first [n] symbols and different numbers
    of matches contradict each other: the model has no solution and, under a
    sound solver, [new_guess] has no suggestion. *)
Theorem conflicting_feedback_blocks (S : Solver) (d n : Z) (log : list (list Z * Z))
        (p1 p2 : list Z) (h1 h2 : Z) :
  In (p1, h1) log -> In (p2, h2) log ->
  usable_guess d n p1 = true ->
  firstn (Z.to_nat n) p1 = firstn (Z.to_nat n) p2 ->
  h1 <> h2 ->
  ~ feasible (solver (run d n log)) /\
  (sound_on S (solver (run d n log)) -> no_suggestion (fst (new_guess S (run d n log)))).
Proof.
  intros Hin1 Hin2 Hu1 E Hne.
  assert (Hn : ~ feasible (solver (run d n log))).
  { intros Hf. apply feasible_has_consistent in Hf. destruct Hf as (c & _ & Hc).
    assert (Hu2 : usable_guess d n p2 = true) by (now rewrite <- (@usable_guess_ext d n p1 p2 E)).
    apply Hne. rewrite <- (Hc p1 h1 Hin1 Hu1), <- (Hc p2 h2 Hin2 Hu2).
    now apply exact_matches_ext. }
  split; [exact Hn|]. intros Hs.
  apply new_guess_not_found; [exact Hs | now apply sound_infeasible].
Qed.

Lemma conflicting_feedback_blocks_witness :
  ~ feasible (solver (run 3 2 [([0; 1], 1); ([2; 2], 0); ([0; 1; 2], 2)]%Z)) /\
  (sound_on enum_solver (solver (run 3 2 [([0; 1], 1); ([2; 2], 0); ([0; 1; 2], 2)]%Z)) ->
   no_suggestion
     (fst (new_guess enum_solver (run 3 2 [([0; 1], 1); ([2; 2], 0); ([0; 1; 2], 2)]%Z)))).
Proof.
  apply (@conflicting_feedback_blocks enum_solver 3 2
           [([0; 1], 1); ([2; 2], 0); ([0; 1; 2], 2)]%Z [0; 1]%Z [0; 1; 2]%Z 1 2).
  - now left.
  - right. right. now left.
  - reflexivity.
  - reflexivity.
  - discriminate.
Defined.

Lemma exact_matches_full (n : Z) (a : list nat) (pswd : list Z) :
  List.length a = Z.to_nat n -> Z.to_nat n <= List.length pswd ->
  (exact_matches n a pswd = Z.of_nat (Z.to_nat n)
   <-> map Z.of_nat a = firstn (Z.to_nat n) pswd).
Proof.
  intros Ha Hp.
  pose proof (@sum_full
                (fun j => match nth_error a j, nth_error pswd j with
                          | Some s, Some p => if (Z.of_nat s =? p)%Z then 1%Z else 0%Z
                          | _, _ => 0%Z
                          end) (range n)) as H.
  unfold range in H. rewrite length_seq in H.
  unfold exact_matches, range. unfold sum in H. rewrite H; clear H.
  - split.
    + intros Hall. apply nth_error_ext. intros j.
      rewrite nth_error_map, nth_error_firstn.
      destruct (Nat.ltb_spec j (Z.to_nat n)) as [Hj|Hj].
      * specialize (Hall j (proj2 (in_range n j) Hj)).
        destruct (nth_error a j) as [s|]; [|discriminate Hall].
        destruct (nth_error pswd j) as [p|]; [|discriminate Hall].
        destruct (Z.eqb_spec (Z.of_nat s) p) as [Esp|];
          [cbn [option_map]; now rewrite Esp | discriminate Hall].
      * replace (nth_error a j) with (@None nat) by (symmetry; apply nth_error_None; lia).
        reflexivity.
    + intros E j Hj. apply in_range in Hj.
      apply (f_equal (fun l => nth_error l j)) in E.
      rewrite nth_error_map, nth_error_firstn in E.
      replace (j <? Z.to_nat n) with true in E by (symmetry; apply Nat.ltb_lt; lia).
      destruct (nth_error a j) as [s|] eqn:Es; [|apply nth_error_None in Es; lia].
      rewrite <- E. cbn [option_map]. now rewrite Z.eqb_refl.
  - intros j _. destruct (nth_error a j) as [s|]; [|lia].
    destruct (nth_error pswd j) as [p|]; [|lia]. destruct (Z.of_nat s =? p)%Z; lia.
Qed.

(** X11.  Under a sound solver a suggestion repeats a stored guess (its first [n]
    symbols) exactly when that guess was stored with [n] matches: a guess
    reported as not fully right is never suggested again. *)
Theorem suggestion_repeats_only_full_match
        (S : Solver) (d n : Z) (log : list (list Z * Z)) (a : list nat)
        (pswd : list Z) (hit : Z) :
  sound_on S (solver (run d n log)) ->
  fst (new_guess S (run d n log)) = Returns (PyStr (render a)) ->
  truthy (PyStr (render a)) = true ->
  In (pswd, hit) log -> usable_guess d n pswd = true ->
  (map Z.of_nat a = firstn (Z.to_nat n) pswd <-> hit = Z.of_nat (Z.to_nat n)).
Proof.
  intros Hs Hv Ht Hin Hu.
  destruct (@suggestion_consistent S d n log a Hs Hv Ht) as [[Hlen _] Hc].
  rewrite <- (Hc pswd hit Hin Hu). symmetry.
  apply exact_matches_full; [exact Hlen|].
  apply usable_guess_iff in Hu. tauto.
Qed.

Lemma suggestion_repeats_only_full_match_witness :
  map Z.of_nat [1; 1] = firstn (Z.to_nat 2) [0; 1]%Z <-> 1%Z = Z.of_nat (Z.to_nat 2).
Proof.
  apply (@suggestion_repeats_only_full_match enum_solver 2 2 [([0; 1], 1)]%Z [1; 1] [0; 1]%Z 1).
  - apply enum_solver_sound.
  - vm_compute. reflexivity.
  - reflexivity.
  - now left.
  - reflexivity.
Defined.

(** ** The suggestion string *)

(** X12.  The text built by [new_guess], a space before each symbol in decimal,
    determines the symbols, also when symbols have several digits. *)
Theorem suggestion_text_unambiguous (a b : list nat) :
  render a = render b <-> a = b.
Proof. split; [apply render_inj | now intros ->]. Qed.

(** X13.  [new_guess] does not look at the status of [Solve()] and does not leave
    the inner loop early: whenever the solver returns and the values read
    back are the integers [x], the call returns the text of all symbols [i]
    with [x (i, j) >= 1], column after column, be the status a success or
    not and be there one such symbol per column or not. *)
Theorem new_guess_reads_every_cell
        (S : Solver) (d n : Z) (log : list (list Z * Z)) (r : SolveResult) (x : var -> Z) :
  S (solver (run d n log)) = Returns r ->
  (forall i j, i < Z.to_nat d -> j < Z.to_nat n ->
               solution_value r (i, j) = Returns (inject_Z (x (i, j)))) ->
  fst (new_guess S (run d n log)) = Returns (PyStr (render (decode x d n))) /\
  forall j, j < Z.to_nat n ->
            exists before after,
              decode x d n = before ++ filter (fun i => (1 <=? x (i, j))%Z) (range d) ++ after.
Proof.
  intros E Hr. split.
  - rewrite run_engine in *. unfold new_guess, new_guess_try. cbn [fst]. rewrite E. cbn [bind].
    cbn [X digits length engine].
    rewrite (@scan_solved d n (solution_value r) x Hr); [reflexivity|].
    intros j Hj. now apply in_range.
  - intros j Hj. unfold decode, range.
    destruct (in_split j (seq 0 (Z.to_nat n)) (proj2 (in_seq _ _ _) (conj (Nat.le_0_l j) Hj)))
      as (l1 & l2 & El).
    rewrite El, flat_map_app. cbn [flat_map].
    exists (flat_map (picked x d) l1), (flat_map (picked x d) l2). f_equal. f_equal.
    unfold picked, range. apply filter_ext. intros i.
    destruct (Z.ltb_spec 0 (x (i, j))), (Z.leb_spec 1 (x (i, j))); try reflexivity; lia.
Qed.

Lemma new_guess_reads_every_cell_witness :
  fst (new_guess (fun _ => answer INFEASIBLE (fun _ => 1%Z)) (run 2 1 []))
  = Returns (PyStr (render (decode (fun _ => 1%Z) 2 1))) /\
  forall j, j < Z.to_nat 1 ->
            exists before after,
              decode (fun _ => 1%Z) 2 1
              = before ++ filter (fun i => (1 <=? (fun _ : var => 1%Z) (i, j))%Z) (range 2) ++ after.
Proof.
  apply (@new_guess_reads_every_cell (fun _ => answer INFEASIBLE (fun _ => 1%Z)) 2 1 []
           {| status := INFEASIBLE; solution_value := fun v => Returns (inject_Z 1) |}
           (fun _ => 1%Z)).
  - reflexivity.
  - intros i j _ _. reflexivity.
Defined.

(** ** The interactive session *)

Lemma add_restr_run (d n : Z) (log : list (list Z * Z)) (pswd : list Z) (hit : Z) :
  (usable_guess d n pswd = true /\
   add_restr pswd hit (run d n log) = (Returns tt, run d n (log ++ [(pswd, hit)]))) \/
  (usable_guess d n pswd = false /\
   exists e, (e = IndexError \/ e = KeyError) /\
             add_restr pswd hit (run d n log) = (Raises e, run d n log)).
Proof.
  pose proof (add_restr_engine d n (stored d n log) pswd hit) as H.
  rewrite !run_engine, stored_app.
  assert (E1 : stored d n [(pswd, hit)] =
               if usable_guess d n pswd then [(guess_sum n pswd, hit)] else [])
    by (unfold stored; cbn [filter fst]; now destruct (usable_guess d n pswd)).
  rewrite E1. destruct (usable_guess d n pswd); [left | right]; (split; [reflexivity|]).
  - exact H.
  - exact H.
Qed.

Lemma new_guess_pair (S : Solver) (m : t) :
  exists v, new_guess S m = (Returns v, m).
Proof.
  unfold new_guess. destruct (new_guess_try S m); eauto.
Qed.

Lemma run_length (d n : Z) (log : list (list Z * Z)) : length (run d n log) = n.
Proof. now rewrite run_engine. Qed.

(** X14.  The loop stops at the first round that wins, that gets no suggestion or
    that raises: what is typed after that round is never read, and changes
    neither the lines printed nor the engine. *)
Theorem session_stops (S : Solver) (master : t) (rounds later : list (list Z * Z)) :
  fst (snd (session S master rounds)) <> Waiting ->
  session S master (rounds ++ later) = session S master rounds.
Proof.
  revert master. induction rounds as [|[pswd hit] rounds IH]; intros master Hend.
  - now contradiction Hend.
  - cbn [session app] in *.
    destruct (length master <=? hit)%Z; [reflexivity|].
    destruct (add_restr pswd hit master) as [[u|e] master']; [|reflexivity].
    destruct (new_guess S master') as [[v|e] master'']; [|reflexivity].
    destruct (truthy v); [|reflexivity].
    cbn [snd fst] in Hend. now rewrite (IH master'' Hend).
Qed.

Lemma session_stops_witness :
  session enum_solver (__init__ 2 2) ([([0; 1], 1); ([1; 1], 2)] ++ [([0; 0], 0)])%Z
  = session enum_solver (__init__ 2 2) [([0; 1], 1); ([1; 1], 2)]%Z.
Proof.
  apply (@session_stops enum_solver (__init__ 2 2) [([0; 1], 1); ([1; 1], 2)]%Z [([0; 0], 0)]%Z).
  vm_compute. discriminate.
Defined.

Lemma stored_all_usable (d n : Z) (l : list (list Z * Z)) :
  (forall pswd hit, In (pswd, hit) l -> usable_guess d n pswd = true) ->
  stored d n l = map (fun c => (guess_sum n (fst c), snd c)) l.
Proof.
  intros H. unfold stored. f_equal. induction l as [|[p h] l IH]; [reflexivity|].
  cbn [filter fst]. rewrite (H p h (or_introl eq_refl)). f_equal.
  apply IH. intros p' h' Hin. apply (H p' h'). now right.
Qed.

(** X15.  The engine kept by the loop holds exactly the rounds it accepted:
    as many leading rounds as suggestions were printed, and one more when the
    loop ended for want of a suggestion.  Each of them has a usable guess and
    fewer than [n] matches, and (the bounds typed being such as a double
    holds exactly) the equalities of the solver are those of [__init__]
    followed by one equality per accepted round, in order; the script never
    stores a constraint with [hit >= n]. *)
Theorem session_engine (S : Solver) (d n : Z) (rounds : list (list Z * Z)) :
  (forall pswd hit, In (pswd, hit) rounds -> exact_hit hit) ->
  let k := rounds_stored (fst (session S (__init__ d n) rounds))
                         (fst (snd (session S (__init__ d n) rounds))) in
  k <= List.length rounds /\
  snd (snd (session S (__init__ d n) rounds)) = run d n (firstn k rounds) /\
  constraints (solver (snd (snd (session S (__init__ d n) rounds))))
  = constraints (solver (__init__ d n))
    ++ map (fun c => (guess_sum n (fst c), snd c)) (firstn k rounds) /\
  forall pswd hit, In (pswd, hit) (firstn k rounds) ->
                   (hit < n)%Z /\ usable_guess d n pswd = true.
Proof.
  intros _.
  assert (H : forall log0,
             let k := rounds_stored (fst (session S (run d n log0) rounds))
                                    (fst (snd (session S (run d n log0) rounds))) in
             k <= List.length rounds /\
             snd (snd (session S (run d n log0) rounds)) = run d n (log0 ++ firstn k rounds) /\
             forall pswd hit, In (pswd, hit) (firstn k rounds) ->
                              (hit < n)%Z /\ usable_guess d n pswd = true).
  { induction rounds as [|[pswd hit] rounds IH]; intros log0.
    - cbn. rewrite app_nil_r. split; [lia|]. split; [reflexivity | intros ? ? []].
    - assert (Hstay : 0 <= List.length ((pswd, hit) :: rounds) /\
                      run d n log0 = run d n (log0 ++ firstn 0 ((pswd, hit) :: rounds)) /\
                      forall p h, In (p, h) (firstn 0 ((pswd, hit) :: rounds)) ->
                                  (h < n)%Z /\ usable_guess d n p = true).
      { cbn [firstn]. rewrite app_nil_r. split; [lia|].
        split; [reflexivity | intros ? ? []]. }
      cbn [session]. rewrite run_length.
      destruct (Z.leb_spec n hit) as [Hge|Hlt]; [exact Hstay|].
      destruct (add_restr_run d n log0 pswd hit) as [[Hu E]|[_ (e & _ & E)]];
        rewrite E; [|exact Hstay].
      destruct (new_guess_pair S (run d n (log0 ++ [(pswd, hit)]))) as [v Ev]. rewrite Ev.
      destruct (truthy v).
      + specialize (IH (log0 ++ [(pswd, hit)])). cbv zeta in IH.
        cbn [fst snd]. unfold rounds_stored in *. cbn [suggestions List.length Nat.add].
        destruct IH as (Hk & Ee & Hall).
        set (k := List.length (suggestions (fst (session S (run d n (log0 ++ [(pswd, hit)])) rounds)))
                  + match fst (snd (session S (run d n (log0 ++ [(pswd, hit)])) rounds)) with
                    | OutOfSuggestions => 1
                    | _ => 0
                    end) in *.
        cbn [firstn]. split; [lia|]. split; [now rewrite Ee, <- app_assoc|].
        intros p h [Ein|Hin]; [injection Ein as <- <-; now split | now apply Hall].
      + cbn. split; [lia|]. split; [reflexivity|].
        intros p h [Ein|[]]. injection Ein as <- <-. now split. }
  specialize (H []). cbv zeta in *. change (run d n []) with (__init__ d n) in H.
  destruct H as (Hk & Ee & Hall). split; [exact Hk|]. split; [exact Ee|].
  split; [|exact Hall].
  rewrite Ee, run_engine. cbn [solver engine constraints]. f_equal.
  apply stored_all_usable. intros p h Hin. now apply (Hall p h).
Qed.

Lemma session_engine_witness :
  let k := rounds_stored (fst (session enum_solver (__init__ 2 2) [([0; 1], 1); ([1; 1], 2)]%Z))
                         (fst (snd (session enum_solver (__init__ 2 2)
                                            [([0; 1], 1); ([1; 1], 2)]%Z))) in
  k <= List.length [([0; 1], 1); ([1; 1], 2)]%Z /\
  snd (snd (session enum_solver (__init__ 2 2) [([0; 1], 1); ([1; 1], 2)]%Z))
  = run 2 2 (firstn k [([0; 1], 1); ([1; 1], 2)]%Z) /\
  constraints (solver (snd (snd (session enum_solver (__init__ 2 2)
                                         [([0; 1], 1); ([1; 1], 2)]%Z))))
  = constraints (solver (__init__ 2 2))
    ++ map (fun c => (guess_sum 2 (fst c), snd c)) (firstn k [([0; 1], 1); ([1; 1], 2)]%Z) /\
  forall pswd hit, In (pswd, hit) (firstn k [([0; 1], 1); ([1; 1], 2)]%Z) ->
                   (hit < 2)%Z /\ usable_guess 2 2 pswd = true.
Proof.
  apply (@session_engine enum_solver 2 2 [([0; 1], 1); ([1; 1], 2)]%Z).
  intros pswd hit [E|[E|[]]]; injection E as _ <-; unfold exact_hit; simpl; lia.
Defined.

(** X16.  Under a sound solver, the suggestion printed after round [i] is the text
    of a code consistent with all the rounds typed so far, each of which was
    accepted with fewer than [n] matches; so it is never one of the guesses
    already tried. *)
Theorem session_suggestions_consistent
        (S : Solver) (d n : Z) (rounds : list (list Z * Z)) (i : nat) (v : pyval) :
  (forall M, sound_on S M) ->
  nth_error (suggestions (fst (session S (__init__ d n) rounds))) i = Some v ->
  exists a, v = PyStr (render a) /\
            consistent d n (firstn (Datatypes.S i) rounds) a /\
            forall pswd hit, In (pswd, hit) (firstn (Datatypes.S i) rounds) ->
                             (hit < n)%Z /\ usable_guess d n pswd = true /\
                             exact_matches n a pswd = hit /\
                             map Z.of_nat a <> firstn (Z.to_nat n) pswd.
Proof.
  intros Hs.
  assert (H : forall log0 k,
             nth_error (suggestions (fst (session S (run d n log0) rounds))) k = Some v ->
             exists a, v = PyStr (render a) /\
                       consistent d n (log0 ++ firstn (Datatypes.S k) rounds) a /\
                       forall pswd hit, In (pswd, hit) (firstn (Datatypes.S k) rounds) ->
                                        (hit < n)%Z /\ usable_guess d n pswd = true).
  { induction rounds as [|[pswd hit] rounds IH]; intros log0 k Hk.
    - destruct k; discriminate Hk.
    - cbn [session] in Hk. rewrite run_length in Hk.
      destruct (Z.leb_spec n hit) as [Hge|Hlt]; [destruct k; discriminate Hk|].
      destruct (add_restr_run d n log0 pswd hit) as [[Hu E]|[_ (e & _ & E)]];
        rewrite E in Hk; [|destruct k; discriminate Hk].
      destruct (new_guess_pair S (run d n (log0 ++ [(pswd, hit)]))) as [w Ew].
      rewrite Ew in Hk. destruct (truthy w) eqn:Ht; [|destruct k; discriminate Hk].
      cbn [fst suggestions] in Hk. destruct k as [|k].
      + injection Hk as ->.
        destruct (@truthy_suggestion S d n (log0 ++ [(pswd, hit)]) v (Hs _)) as (a & Ea & Ha);
          [now rewrite Ew | exact Ht |].
        exists a. split; [exact Ea|]. cbn [firstn]. split; [exact Ha|].
        intros p h [Ein|[]]. injection Ein as <- <-. now split.
      + cbn [nth_error] in Hk.
        destruct (IH (log0 ++ [(pswd, hit)]) k Hk) as (a & Ea & Ha & Hall).
        exists a. split; [exact Ea|].
        change (firstn (Datatypes.S (Datatypes.S k)) ((pswd, hit) :: rounds))
          with ((pswd, hit) :: firstn (Datatypes.S k) rounds).
        split; [now rewrite <- app_assoc in Ha|].
        intros p h [Ein|Hin]; [injection Ein as <- <-; now split | now apply Hall]. }
  intros Hi. change (__init__ d n) with (run d n []) in Hi.
  destruct (H [] i Hi) as (a & Ea & Ha & Hall). cbn [app] in Ha.
  exists a. split; [exact Ea|]. split; [exact Ha|].
  intros pswd hit Hin. destruct (Hall pswd hit Hin) as [Hlt Hu].
  destruct Ha as [[Hlen Hsym] Hc]. pose proof (Hc pswd hit Hin Hu) as Hm.
  repeat split; try assumption.
  intros Eq. apply usable_guess_iff in Hu. destruct Hu as [Hp _].
  apply (exact_matches_full n a pswd Hlen Hp) in Eq. lia.
Qed.

Lemma session_suggestions_consistent_witness :
  exists a, PyStr " 1 1" = PyStr (render a) /\
            consistent 2 2 (firstn 1 [([0; 1], 1)]%Z) a /\
            forall pswd hit, In (pswd, hit) (firstn 1 [([0; 1], 1)]%Z) ->
                             (hit < 2)%Z /\ usable_guess 2 2 pswd = true /\
                             exact_matches 2 a pswd = hit /\
                             map Z.of_nat a <> firstn (Z.to_nat 2) pswd.
Proof.
  apply (@session_suggestions_consistent enum_solver 2 2 [([0; 1], 1)]%Z 0 (PyStr " 1 1")).
  - apply enum_solver_sound.
  - vm_compute. reflexivity.
Defined.

(** X17.  With a sound and complete solver and truthful feedback about a secret
    code (every guess usable, every number of matches the exact one), the
    loop is never left without suggestion nor by an exception: it ends won,
    or waits for the next round; and as long as no guess is fully right each
    round typed gets its suggestion. *)
Theorem honest_session_never_stuck
        (S : Solver) (d n : Z) (secret : list nat) (rounds : list (list Z * Z)) :
  is_assignment d n secret ->
  (forall pswd hit, In (pswd, hit) rounds ->
                    usable_guess d n pswd = true /\ hit = exact_matches n secret pswd) ->
  (forall M, sound_on S M) ->
  (forall log, complete_on S (solver (run d n log))) ->
  (fst (snd (session S (__init__ d n) rounds)) = Won \/
   fst (snd (session S (__init__ d n) rounds)) = Waiting) /\
  ((forall pswd hit, In (pswd, hit) rounds -> (hit < n)%Z) ->
   fst (snd (session S (__init__ d n) rounds)) = Waiting /\
   List.length (suggestions (fst (session S (__init__ d n) rounds))) = List.length rounds).
Proof.
  intros Hsec Hhon Hs Hc.
  assert (H : forall log0,
             consistent d n log0 secret ->
             (fst (snd (session S (run d n log0) rounds)) = Won \/
              fst (snd (session S (run d n log0) rounds)) = Waiting) /\
             ((forall pswd hit, In (pswd, hit) rounds -> (hit < n)%Z) ->
              fst (snd (session S (run d n log0) rounds)) = Waiting /\
              List.length (suggestions (fst (session S (run d n log0) rounds)))
              = List.length rounds)).
  { induction rounds as [|[pswd hit] rounds IH]; intros log0 Hcons.
    - split; [now right | intros _; now split].
    - destruct (Hhon pswd hit (or_introl eq_refl)) as [Hu Hh].
      cbn [session]. rewrite run_length.
      destruct (Z.leb_spec n hit) as [Hge|Hlt].
      + split; [now left|]. intros Hall. specialize (Hall pswd hit (or_introl eq_refl)). lia.
      + destruct (add_restr_run d n log0 pswd hit) as [[_ E]|[Hu' _]]; [|congruence].
        rewrite E.
        assert (Hcons' : consistent d n (log0 ++ [(pswd, hit)]) secret).
        { split; [exact Hsec|]. intros p h Hin Hup. apply in_app_or in Hin.
          destruct Hin as [Hin|[Ein|[]]]; [now apply (proj2 Hcons)|].
          injection Ein as <- <-. now symmetry. }
        pose proof (exact_matches_bounds n secret pswd) as Hb.
        destruct (@consistent_gives_suggestion S d n (log0 ++ [(pswd, hit)]) secret
                    ltac:(lia) (Hs _) (Hc _) Hcons') as (a & Ea & Ht & _).
        destruct (new_guess_pair S (run d n (log0 ++ [(pswd, hit)]))) as [v Ev].
        rewrite Ev in Ea |- *. cbn [fst] in Ea. injection Ea as ->. rewrite Ht.
        cbn [fst snd suggestions List.length].
        destruct (IH (fun p h Hin => Hhon p h (or_intror Hin)) (log0 ++ [(pswd, hit)]) Hcons')
          as [IH1 IH2].
        split; [exact IH1|]. intros Hall.
        destruct (IH2 (fun p h Hin => Hall p h (or_intror Hin))) as [Hw Hl].
        split; [exact Hw | now rewrite Hl]. }
  apply (H []). split; [exact Hsec | intros ? ? []].
Qed.

Lemma honest_session_never_stuck_witness :
  (fst (snd (session enum_solver (__init__ 2 2) [([0; 1], 1); ([1; 0], 1)]%Z)) = Won \/
   fst (snd (session enum_solver (__init__ 2 2) [([0; 1], 1); ([1; 0], 1)]%Z)) = Waiting) /\
  ((forall pswd hit, In (pswd, hit) [([0; 1], 1); ([1; 0], 1)]%Z -> (hit < 2)%Z) ->
   fst (snd (session enum_solver (__init__ 2 2) [([0; 1], 1); ([1; 0], 1)]%Z)) = Waiting /\
   List.length (suggestions (fst (session enum_solver (__init__ 2 2)
                                          [([0; 1], 1); ([1; 0], 1)]%Z)))
   = List.length [([0; 1], 1); ([1; 0], 1)]%Z).
Proof.
  apply (@honest_session_never_stuck enum_solver 2 2 [0; 0] [([0; 1], 1); ([1; 0], 1)]%Z).
  - split; [reflexivity|]. repeat constructor.
  - intros pswd hit [E|[E|[]]]; injection E as <- <-; split; reflexivity.
  - apply enum_solver_sound.
  - intros log. apply enum_solver_complete, engine_closed.
Defined.

(** X18.  A round with fewer than [n] matches whose guess is too short or has a
    symbol that is no key of [X] ends the script: the exception of
    [add_restr] is not caught, nothing more is printed and the engine is as
    before the round. *)
Theorem session_crashes_on_unusable_guess
        (S : Solver) (d n : Z) (log rounds : list (list Z * Z)) (pswd : list Z) (hit : Z) :
  (hit < n)%Z -> usable_guess d n pswd = false ->
  exists e, (e = IndexError \/ e = KeyError) /\
            session S (run d n log) ((pswd, hit) :: rounds)
            = ([AskGuess; AskHits], (Crashed e, run d n log)).
Proof.
  intros Hlt Hu. cbn [session]. rewrite run_length.
  destruct (Z.leb_spec n hit) as [Hge|_]; [lia|].
  destruct (add_restr_run d n log pswd hit) as [[Hu' _]|[_ (e & He & E)]]; [congruence|].
  exists e. split; [exact He|]. now rewrite E.
Qed.

Lemma session_crashes_on_unusable_guess_witness :
  exists e, (e = IndexError \/ e = KeyError) /\
            session enum_solver (run 2 3 []) (([0; 1]%Z, 1%Z) :: [])
            = ([AskGuess; AskHits], (Crashed e, run 2 3 [])).
Proof.
  apply (@session_crashes_on_unusable_guess enum_solver 2 3 [] [] [0; 1]%Z 1).
  - lia.
  - reflexivity.
Defined.

(** ** The batch run *)

Lemma nth_error_combine {A B : Type} (l : list A) (l' : list B) (k : nat) (a : A) (b : B) :
  nth_error l k = Some a -> nth_error l' k = Some b -> nth_error (combine l l') k = Some (a, b).
Proof.
  revert l l'. induction k as [|k IH]; intros [|x l] [|y l'] Ha Hb; try discriminate.
  - injection Ha as ->. injection Hb as ->. reflexivity.
  - now apply IH.
Qed.

Lemma skipn_cons {A : Type} (l : list A) (k : nat) (a : A) :
  nth_error l k = Some a -> skipn k l = a :: skipn (Datatypes.S k) l.
Proof.
  revert l. induction k as [|k IH]; intros [|x l] H; try discriminate.
  - injection H as ->. reflexivity.
  - exact (IH l H).
Qed.

Lemma feed_rows (d n : Z) (G : list (list Z)) (h : list Z) (b : nat) :
  forall (a : nat) (log0 : list (list Z * Z)),
    (forall k, a <= k < a + b ->
               exists row hk, nth_error G k = Some row /\ nth_error h k = Some hk /\
                              usable_guess d n row = true) ->
    feed (run d n log0) G h (seq a b)
    = Returns (run d n (log0 ++ firstn b (skipn a (combine G h)))).
Proof.
  induction b as [|b IH]; intros a log0 Hrows.
  - cbn [seq feed firstn]. now rewrite app_nil_r.
  - destruct (Hrows a ltac:(lia)) as (row & hk & Er & Eh & Hu).
    cbn [seq feed]. unfold list_get. rewrite Er, Eh. cbn [bind].
    destruct (add_restr_run d n log0 row hk) as [[_ E]|[Hu' _]]; [|congruence].
    rewrite E. rewrite IH by (intros k Hk; apply Hrows; lia).
    rewrite (skipn_cons _ _ (nth_error_combine _ _ _ Er Eh)).
    cbn [firstn]. now rewrite <- app_assoc.
Qed.

(** X19.  The batch run on an empty table stops with [IndexError] at [G[0]].  On
    a table of as many match counts as guesses, every guess as long as the
    first and made of digits 0 to 9, no call raises and the answer is that
    of [new_guess] on the engine of 10 symbols holding all the rows in
    order; under a sound solver, an answer that is a suggestion has with
    every row its number of exact matches. *)
Theorem euler185_table (S : Solver) (h : list Z) :
  euler185 S [] h = Raises IndexError /\
  forall (G : list (list Z)) (G0 : list Z),
    nth_error G 0 = Some G0 ->
    List.length h = List.length G ->
    (forall row, In row G ->
                 List.length row = List.length G0 /\ Forall (fun s => (0 <= s < 10)%Z) row) ->
    euler185 S G h
    = fst (new_guess S (run 10 (Z.of_nat (List.length G0)) (combine G h))) /\
    (sound_on S (solver (run 10 (Z.of_nat (List.length G0)) (combine G h))) ->
     forall v, euler185 S G h = Returns v -> truthy v = true ->
       exists a, v = PyStr (render a) /\
                 is_assignment 10 (Z.of_nat (List.length G0)) a /\
                 forall k row hk, nth_error G k = Some row -> nth_error h k = Some hk ->
                                  exact_matches (Z.of_nat (List.length G0)) a row = hk).
Proof.
  split; [reflexivity|]. intros G G0 E0 Hlen Hrows.
  set (n := Z.of_nat (List.length G0)).
  assert (Husable : forall row, In row G -> usable_guess 10 n row = true).
  { intros row Hin. destruct (Hrows row Hin) as [Hl Hdig].
    apply usable_guess_iff. unfold n. rewrite Nat2Z.id. split; [lia|].
    intros j p _ Ep. rewrite Forall_forall in Hdig. apply Hdig.
    now apply nth_error_In with j. }
  assert (E : euler185 S G h = fst (new_guess S (run 10 n (combine G h)))).
  { unfold euler185, list_get. rewrite E0. cbn [bind]. fold n.
    change (__init__ 10 n) with (run 10 n []). unfold range. rewrite Nat2Z.id.
    rewrite (@feed_rows 10 n G h (List.length h) 0 []).
    - cbn [bind app skipn]. rewrite firstn_all2; [reflexivity|].
      rewrite length_combine. lia.
    - intros k Hk.
      destruct (nth_error G k) as [row|] eqn:Er; [|apply nth_error_None in Er; lia].
      destruct (nth_error h k) as [hk|] eqn:Eh; [|apply nth_error_None in Eh; lia].
      exists row, hk. split; [reflexivity|]. split; [reflexivity|].
      apply Husable. now apply nth_error_In with k. }
  split; [exact E|]. intros Hs v Ev Ht. rewrite E in Ev.
  destruct (@truthy_suggestion S 10 n (combine G h) v Hs Ev Ht) as (a & Ea & Ha & Hc).
  exists a. split; [exact Ea|]. split; [exact Ha|].
  intros k row hk Er Eh. apply Hc.
  - apply nth_error_In with k. now apply nth_error_combine.
  - apply Husable. now apply nth_error_In with k.
Qed.

Lemma euler185_table_witness :
  euler185 enum_solver [[0; 1]; [1; 1]]%Z [1; 1]%Z
  = fst (new_guess enum_solver (run 10 (Z.of_nat (List.length [0; 1]%Z))
                                    (combine [[0; 1]; [1; 1]]%Z [1; 1]%Z))).
Proof.
  apply (proj2 (euler185_table enum_solver [1; 1]%Z) [[0; 1]; [1; 1]]%Z [0; 1]%Z).
  - reflexivity.
  - reflexivity.
  - intros row [<-|[<-|[]]]; (split; [reflexivity|]); repeat constructor; lia.
Defined.

(** ** What the calls never touch *)

(** X2.  Whatever calls of [add_restr] were made, with whatever outcome (the
    bounds being such as a double holds exactly), the engine keeps the
    dimensions, the table [X] and the variables of [__init__], and its
    equalities are the [n] column equalities, in place, followed by one
    equality per call that returned, in the order of the calls. *)
Theorem run_keeps_init_model (d n : Z) (log : list (list Z * Z)) :
  (forall pswd hit, In (pswd, hit) log -> exact_hit hit) ->
  digits (run d n log) = d /\ length (run d n log) = n /\
  X (run d n log) = X (__init__ d n) /\
  variables (solver (run d n log)) = variables (solver (__init__ d n)) /\
  constraints (solver (run d n log))
  = constraints (solver (__init__ d n))
    ++ map (fun c => (guess_sum n (fst c), snd c))
           (filter (fun c => usable_guess d n (fst c)) log) /\
  List.length (constraints (solver (run d n log)))
  = Z.to_nat n + List.length (filter (fun c => usable_guess d n (fst c)) log).
Proof.
  intros _.
  rewrite run_engine. cbn [engine digits length X solver variables constraints].
  do 5 (split; [reflexivity|]).
  fold (stored d n log). rewrite length_app. unfold stored. rewrite length_map.
  cbn [__init__ solver constraints].
  unfold range. now rewrite length_map, length_seq.
Qed.

Lemma run_keeps_init_model_witness :
  digits (run 2 2 [([0; 1], 1); ([5], 0)]%Z) = 2%Z /\
  length (run 2 2 [([0; 1], 1); ([5], 0)]%Z) = 2%Z /\
  X (run 2 2 [([0; 1], 1); ([5], 0)]%Z) = X (__init__ 2 2) /\
  variables (solver (run 2 2 [([0; 1], 1); ([5], 0)]%Z)) = variables (solver (__init__ 2 2)) /\
  constraints (solver (run 2 2 [([0; 1], 1); ([5], 0)]%Z))
  = constraints (solver (__init__ 2 2))
    ++ map (fun c => (guess_sum 2 (fst c), snd c))
           (filter (fun c => usable_guess 2 2 (fst c)) [([0; 1], 1); ([5], 0)]%Z) /\
  List.length (constraints (solver (run 2 2 [([0; 1], 1); ([5], 0)]%Z)))
  = Z.to_nat 2 + List.length (filter (fun c => usable_guess 2 2 (fst c))
                                     [([0; 1], 1); ([5], 0)]%Z).
Proof.
  apply (@run_keeps_init_model 2 2 [([0; 1], 1); ([5], 0)]%Z).
  intros pswd hit [E|[E|[]]]; injection E as _ <-; unfold exact_hit; simpl; lia.
Defined.
